(** * Scene controller and host message dispatch

    A shallow embedding of [src/render/sceneController.ts] (the entity
    meshes, their materials, selection and hovering, pointer handlers) and
    of the [Clear] branch of the message switch of [src/main.ts], with the
    properties stated about them.

    Objects of the 3D engine have identity: a mesh is modelled by its
    handle, the index at which it was added to the scene, and the scene is
    the list of the meshes created so far.  The three entity materials are
    shared instances, modelled by an enumeration. *)

From Stdlib Require Import ZArith Ascii String Lia.
From stdpp Require Import base option list gmap strings.

Local Open Scope string_scope.
Local Open Scope Z_scope.

(** ** Numbers and strings of the language

    An entity id is a [number].  Integer ids are modelled by [Z]; the
    integers that are values of the number type are those that
    [round_double] leaves unchanged (53 significant bits, round to nearest,
    ties to even; the overflow to infinity, beyond [2 ^ 1024], is not
    modelled). *)

Module JS.

Definition round_double (z : Z) : Z :=
  let a := Z.abs z in
  if a <? 2 ^ 53 then z
  else
    let e := Z.log2 a - 52 in
    let q := Z.shiftr a e in
    let r := Z.land a (Z.ones e) in
    let half := 2 ^ (e - 1) in
    let q' := if (half <? r) || ((r =? half) && Z.odd q) then q + 1 else q in
    Z.sgn z * Z.shiftl q' e.

Definition is_number (z : Z) : Prop := round_double z = z.

Definition digit_char (d : Z) : ascii := ascii_of_nat (48 + Z.to_nat d).

Fixpoint digits_aux (fuel : nat) (n : Z) (acc : string) : string :=
  match fuel with
  | O => acc
  | S f =>
      let acc' := String (digit_char (n mod 10)) acc in
      if n <? 10 then acc' else digits_aux f (n / 10) acc'
  end.

(** The decimal digits of a natural number, most significant first. *)
Definition decimal_digits (n : Z) : string :=
  digits_aux (S (Z.to_nat (Z.log2 n))) n EmptyString.

(** Number of decimal digits of [n > 0]. *)
Definition num_digits (n : Z) : Z := Z.of_nat (String.length (decimal_digits n)).

(** [n] without its trailing zeros (the digits [s] of the number-to-string
    algorithm), for [n > 0]. *)
Fixpoint strip_zeros (fuel : nat) (n : Z) : Z :=
  match fuel with
  | O => n
  | S f => if (n mod 10 =? 0) && (0 <? n) then strip_zeros f (n / 10) else n
  end.

(** The search of the number-to-string algorithm for a positive integer
    number [x]: the integer [y] with the fewest significant digits whose
    number value is [x]; among those with [k] digits, the nearest to [x],
    and of two equally near the one with the even digit string. *)
Definition candidate (x : Z) (d k : Z) : option Z :=
  let p := 10 ^ (d - k) in
  let lo := (x / p) * p in
  let hi := lo + p in
  let oklo := round_double lo =? x in
  let okhi := round_double hi =? x in
  if oklo && okhi then
    if (x - lo <? hi - x) || ((x - lo =? hi - x) && Z.even (x / p))
    then Some lo else Some hi
  else if oklo then Some lo
  else if okhi then Some hi
  else None.

Fixpoint shortest_from (fuel : nat) (x d k : Z) : Z :=
  match fuel with
  | O => x
  | S f =>
      match candidate x d k with
      | Some y => y
      | None => shortest_from f x d (k + 1)
      end
  end.

Definition shortest (x : Z) : Z :=
  let d := num_digits x in
  shortest_from (Z.to_nat (d - 1)) x d 1.

(** [Number::toString] (radix 10) on an integer: decimal notation when the
    value has at most 21 digits, exponent notation beyond. *)
Definition positive_to_string (x : Z) : string :=
  let y := shortest x in
  let n := num_digits y in
  if n <=? 21 then decimal_digits y
  else
    let s := decimal_digits (strip_zeros (Z.to_nat n) y) in
    match s with
    | String c EmptyString => String c ("e+" ++ decimal_digits (n - 1))
    | String c rest => String c ("." ++ rest ++ "e+" ++ decimal_digits (n - 1))
    | EmptyString => s
    end.

Definition number_to_string (x : Z) : string :=
  if x =? 0 then "0"
  else if x <? 0 then "-" ++ positive_to_string (- x)
  else positive_to_string x.

(** [parseInt(string)] without a radix argument: leading white space (of
    the ASCII range) is skipped, then an optional sign, then a [0x] prefix
    selects radix 16; the longest prefix of digits is read, and no digit
    at all is [NaN] ([None]). *)
Definition is_white_space (c : ascii) : bool :=
  let n := nat_of_ascii c in
  ((9 <=? n)%nat && (n <=? 13)%nat) || (n =? 32)%nat.

Fixpoint skip_white_space (s : string) : string :=
  match s with
  | String c s' => if is_white_space c then skip_white_space s' else s
  | EmptyString => s
  end.

Definition digit_value (radix : Z) (c : ascii) : option Z :=
  let n := Z.of_nat (nat_of_ascii c) in
  let v :=
    if (48 <=? n) && (n <=? 57) then Some (n - 48)
    else if (97 <=? n) && (n <=? 122) then Some (n - 87)
    else if (65 <=? n) && (n <=? 90) then Some (n - 55)
    else None in
  match v with
  | Some d => if d <? radix then Some d else None
  | None => None
  end.

Fixpoint digits_value (radix : Z) (s : string) (acc : Z) : Z :=
  match s with
  | String c s' =>
      match digit_value radix c with
      | Some d => digits_value radix s' (radix * acc + d)
      | None => acc
      end
  | EmptyString => acc
  end.

Definition parse_digits (radix : Z) (s : string) : option Z :=
  match s with
  | String c _ =>
      match digit_value radix c with
      | Some _ => Some (digits_value radix s 0)
      | None => None
      end
  | EmptyString => None
  end.

Definition parse_unsigned (s : string) : option Z :=
  match s with
  | String "0" (String "x" s') => parse_digits 16 s'
  | String "0" (String "X" s') => parse_digits 16 s'
  | _ => parse_digits 10 s
  end.

Definition parseInt (s : string) : option Z :=
  let s := skip_white_space s in
  match s with
  | String "-" s' => (fun v => round_double (- v)) <$> parse_unsigned s'
  | String "+" s' => round_double <$> parse_unsigned s'
  | _ => round_double <$> parse_unsigned s
  end.

(** The strings made of decimal digits only. *)
Inductive all_digits : string → Prop :=
  | all_digits_nil : all_digits EmptyString
  | all_digits_cons d s :
      0 <= d < 10 → all_digits s → all_digits (String (digit_char d) s).

End JS.

(** ** The scene controller *)

Module Scene.

(** The materials built by [createScene]: the grid's and the three shared
    entity materials. *)
Inductive Material : Set :=
  | groundMaterial
  | entityMaterial
  | selectedMaterial
  | hoveredMaterial.

#[global] Instance Material_eq_dec : EqDecision Material.
Proof. solve_decision. Defined.

Section SceneController.

(** [RECORDING.IEntity] and [NaiveRecordedData.getEntityPosition] are
    declared in [recording/RecordingData], which is not part of the
    sources at hand: the entity type, its [id] field and the derived
    position are parameters, and so is the vector type of the engine. *)
Context {Vector3 : Type} (Vector3_Zero : Vector3).
Context {IEntity : Type} (entity_id : IEntity → Z).
Context (getEntityPosition : IEntity → Vector3).

(** The fields of an engine mesh that the controller reads or writes. *)
Record Mesh : Type := mkMesh {
  mesh_name : string;
  mesh_id : string;
  mesh_material : Material;
  mesh_isPickable : bool;
  mesh_enabled : bool;
  mesh_position : Vector3
}.

Definition set_material (mat : Material) (m : Mesh) : Mesh :=
  mkMesh (mesh_name m) (mesh_id m) mat (mesh_isPickable m) (mesh_enabled m)
         (mesh_position m).

Definition setEnabled (b : bool) (m : Mesh) : Mesh :=
  mkMesh (mesh_name m) (mesh_id m) (mesh_material m) (mesh_isPickable m) b
         (mesh_position m).

Definition set_position (p : Vector3) (m : Mesh) : Mesh :=
  mkMesh (mesh_name m) (mesh_id m) (mesh_material m) (mesh_isPickable m)
         (mesh_enabled m) p.

(** The controller: the meshes of the scene (a mesh reference is an index
    in this list), the [entities] map from entity id to mesh, and the two
    back-references, [None] while they are [undefined] or [null]. *)
Record SceneController : Type := mkController {
  scene_meshes : list Mesh;
  entities : gmap Z nat;
  selectedEntity : option nat;
  hoveredEntity : option nat
}.

Definition with_meshes (ms : list Mesh) (c : SceneController) : SceneController :=
  mkController ms (entities c) (selectedEntity c) (hoveredEntity c).

(** Assignment to a field of the mesh behind a reference. *)
Definition update_mesh (h : nat) (f : Mesh → Mesh) (c : SceneController)
  : SceneController :=
  with_meshes (alter f h (scene_meshes c)) c.

(** The state after [initialize]: the scene holds the grid plane only, the
    map is empty and nothing is selected or hovered. *)
Definition grid : Mesh :=
  mkMesh "plane" "plane" groundMaterial false true Vector3_Zero.

Definition initial : SceneController :=
  mkController [grid] ∅ None None.

(** [createEntity]: a new sphere joins the scene and is registered under
    the entity id, whatever the map held there. *)
Definition createEntity (entity : IEntity) (c : SceneController)
  : nat * SceneController :=
  let sphere :=
    mkMesh "sphere" (JS.number_to_string (entity_id entity)) entityMaterial
           true true Vector3_Zero in
  let h := length (scene_meshes c) in
  (h, mkController (scene_meshes c ++ [sphere])
                   (<[entity_id entity := h]> (entities c))
                   (selectedEntity c) (hoveredEntity c)).

Definition setEntity (entity : IEntity) (c : SceneController) : SceneController :=
  let '(storedMesh, c) :=
    match entities c !! entity_id entity with
    | Some storedMesh => (storedMesh, c)
    | None => createEntity entity c
    end in
  let postion := getEntityPosition entity in
  let c := update_mesh storedMesh (set_position postion) c in
  update_mesh storedMesh (setEnabled true) c.

(** The meshes the map refers to, in the order of iteration. *)
Definition entity_values (c : SceneController) : list nat :=
  (map_to_list (entities c)).*2.

(** The loop of [hideAllEntities] over the meshes [hs]. *)
Definition hide_fold (hs : list nat) (c : SceneController) : SceneController :=
  foldl (fun c mesh => update_mesh mesh (setEnabled false) c) c hs.

Definition hideAllEntities (c : SceneController) : SceneController :=
  hide_fold (entity_values c) c.

Definition markEntityAsSelected (id : Z) (c : SceneController) : SceneController :=
  match entities c !! id with
  | Some storedMesh =>
      let c :=
        match selectedEntity c with
        | Some prev => update_mesh prev (set_material entityMaterial) c
        | None => c
        end in
      let c := update_mesh storedMesh (set_material selectedMaterial) c in
      mkController (scene_meshes c) (entities c) (Some storedMesh) (hoveredEntity c)
  | None => c
  end.

(** The restoration shared by [onEntityHovered] and [onEntityStopHovered]. *)
Definition restore_hovered (c : SceneController) : SceneController :=
  match hoveredEntity c with
  | Some prev =>
      if decide (hoveredEntity c = selectedEntity c)
      then update_mesh prev (set_material selectedMaterial) c
      else update_mesh prev (set_material entityMaterial) c
  | None => c
  end.

Definition onEntityHovered (id : Z) (c : SceneController) : SceneController :=
  match entities c !! id with
  | Some storedMesh =>
      let c := restore_hovered c in
      let c := update_mesh storedMesh (set_material hoveredMaterial) c in
      mkController (scene_meshes c) (entities c) (selectedEntity c) (Some storedMesh)
  | None => c
  end.

Definition onEntityStopHovered (c : SceneController) : SceneController :=
  let c := restore_hovered c in
  mkController (scene_meshes c) (entities c) (selectedEntity c) None.

(** *** Pointer handlers

    A pick result: whether the ray hit a mesh accepted by the pick
    predicate ([isPickable]) and which one. *)
Record PickingInfo : Type := mkPick {
  hit : bool;
  pickedMesh : option nat
}.

(** The call of the external callback [onEntitySelected], with the number
    it receives ([None] for [NaN]). *)
Inductive Callback : Type :=
  | OnEntitySelected (id : option Z).

(** [scene.onPointerDown]: the new state and the callbacks invoked (the
    field [onEntitySelected] is taken to be set); [None] when the handler
    would read the id of no mesh. *)
Definition onPointerDown (p : PickingInfo) (c : SceneController)
  : option (SceneController * list Callback) :=
  if hit p then
    m ← pickedMesh p ≫= (scene_meshes c !!.);
    Some (c, [OnEntitySelected (JS.parseInt (mesh_id m))])
  else Some (c, []).

(** [scene.onPointerMove] (the cursor style of the canvas is not part of
    the state).  An id that is [NaN] is the key of no entity. *)
Definition onPointerMove (p : PickingInfo) (c : SceneController)
  : option SceneController :=
  if hit p then
    m ← pickedMesh p ≫= (scene_meshes c !!.);
    Some (match JS.parseInt (mesh_id m) with
          | Some id => onEntityHovered id c
          | None => c
          end)
  else Some (onEntityStopHovered c).

(** *** Reachable states *)

Inductive Op : Type :=
  | CreateEntity (entity : IEntity)
  | SetEntity (entity : IEntity)
  | HideAllEntities
  | MarkEntityAsSelected (id : Z)
  | OnEntityHovered (id : Z)
  | OnEntityStopHovered
  | PointerDown (p : PickingInfo)
  | PointerMove (p : PickingInfo).

Definition run_op (c : SceneController) (o : Op) : SceneController :=
  match o with
  | CreateEntity e => (createEntity e c).2
  | SetEntity e => setEntity e c
  | HideAllEntities => hideAllEntities c
  | MarkEntityAsSelected id => markEntityAsSelected id c
  | OnEntityHovered id => onEntityHovered id c
  | OnEntityStopHovered => onEntityStopHovered c
  | PointerDown p => default c (fst <$> onPointerDown p c)
  | PointerMove p => default c (onPointerMove p c)
  end.

Definition run (ops : list Op) (c : SceneController) : SceneController :=
  foldl run_op c ops.

(** The states the public operations lead to from [initial]. *)
Definition reachable (c : SceneController) : Prop :=
  ∃ ops, c = run ops initial.

(** *** Observations and invariants *)

Definition material_at (c : SceneController) (h : nat) : option Material :=
  mesh_material <$> scene_meshes c !! h.

Definition enabled_at (c : SceneController) (h : nat) : option bool :=
  mesh_enabled <$> scene_meshes c !! h.

Definition position_at (c : SceneController) (h : nat) : option Vector3 :=
  mesh_position <$> scene_meshes c !! h.

(** [h] is an entity mesh of the scene: a sphere made by [createEntity],
    the pickable meshes. *)
Definition entity_mesh (c : SceneController) (h : nat) : Prop :=
  ∃ m, scene_meshes c !! h = Some m ∧ mesh_isPickable m = true.

(** The references of the controller lead to entity meshes of the scene,
    stamped with their key, and distinct ids have distinct meshes. *)
Record coherent (c : SceneController) : Prop := mkCoherent {
  coh_entities : ∀ id h, entities c !! id = Some h →
    ∃ m, scene_meshes c !! h = Some m ∧ mesh_isPickable m = true
         ∧ mesh_id m = JS.number_to_string id;
  coh_injective : ∀ i j h,
    entities c !! i = Some h → entities c !! j = Some h → i = j;
  coh_selected : ∀ h, selectedEntity c = Some h → entity_mesh c h;
  coh_hovered : ∀ h, hoveredEntity c = Some h → entity_mesh c h
}.

(** What the materials of the entity meshes tell in every reachable state. *)
Record material_state (c : SceneController) : Prop := mkMaterialState {
  mat_one_of_three : ∀ h, entity_mesh c h →
    material_at c h = Some entityMaterial
    ∨ material_at c h = Some selectedMaterial
    ∨ material_at c h = Some hoveredMaterial;
  mat_selected_only : ∀ h, material_at c h = Some selectedMaterial →
    selectedEntity c = Some h;
  mat_hovered_only : ∀ h, material_at c h = Some hoveredMaterial →
    hoveredEntity c = Some h;
  mat_of_selected : ∀ h, selectedEntity c = Some h →
    material_at c h = Some selectedMaterial
    ∨ (hoveredEntity c = Some h ∧ material_at c h = Some hoveredMaterial)
}.

(** Every entity mesh of the scene is the mesh of some id of the map. *)
Definition all_tracked (c : SceneController) : Prop :=
  ∀ h, entity_mesh c h → ∃ id, entities c !! id = Some h.

(** *** Update passes

    The ids handed to [setEntity] (or [createEntity]) since the last
    [hideAllEntities]. *)
Definition pass_step (acc : list Z) (o : Op) : list Z :=
  match o with
  | HideAllEntities => []
  | SetEntity e | CreateEntity e => entity_id e :: acc
  | _ => acc
  end.

Definition latest_pass (ops : list Op) : list Z := foldl pass_step [] ops.

(** [createEntity] is called by [setEntity] for an id that has no mesh
    yet; a sequence of operations is guarded when its direct calls of
    [createEntity] keep to that. *)
Definition guard (c : SceneController) (o : Op) : bool :=
  match o with
  | CreateEntity e => bool_decide (entities c !! entity_id e = None)
  | _ => true
  end.

Fixpoint guarded (ops : list Op) (c : SceneController) : bool :=
  match ops with
  | [] => true
  | o :: ops' => guard c o && guarded ops' (run_op c o)
  end.

(** *** Auxiliary notions of the statements *)

(** What [setEntity] does to its mesh. *)
Definition place (e : IEntity) (m : Mesh) : Mesh :=
  setEnabled true (set_position (getEntityPosition e) m).


Definition same_but_placement (m m' : Mesh) : Prop :=
  ∃ b p, m' = setEnabled b (set_position p m).

(** An update pass: [hideAllEntities], then [setEntity] for the entities
    of the frame. *)
Definition update_pass (es : list IEntity) (c : SceneController)
  : SceneController :=
  foldl (fun c e => setEntity e c) (hideAllEntities c) es.

(** A mesh update that leaves the stamp and the pick flag alone. *)
Definition keeps_identity (f : Mesh → Mesh) : Prop :=
  ∀ m, mesh_isPickable (f m) = mesh_isPickable m ∧ mesh_id (f m) = mesh_id m.

(** The invariant of the reachable states. *)
Definition invariant (c : SceneController) : Prop :=
  coherent c ∧ material_state c.

(** The operations that create, show or hide meshes; the others (selection,
    hovering, the pointer) leave the map, the enabled flags and the set of
    entity meshes alone. *)
Definition visibility_op (o : Op) : bool :=
  match o with
  | CreateEntity _ | SetEntity _ | HideAllEntities => true
  | _ => false
  end.

(** The enabled flag of the mesh of every id tells whether the id is in
    [acc], the ids of the pass so far. *)
Definition enabled_reflects (acc : list Z) (c : SceneController) : Prop :=
  ∀ id h, entities c !! id = Some h →
    enabled_at c h = Some (bool_decide (id ∈ acc)).

(** The meshes of [c] are still in [c'], with their stamp and pick flag. *)
Definition meshes_kept (c c' : SceneController) : Prop :=
  ∀ h m, scene_meshes c !! h = Some m →
    ∃ m', scene_meshes c' !! h = Some m' ∧ mesh_id m' = mesh_id m
          ∧ mesh_isPickable m' = mesh_isPickable m.

(** The ids handed to [createEntity] or [setEntity] by a sequence of
    operations. *)
Definition passed_ids (ops : list Op) : list Z :=
  omap (fun o => match o with
                 | CreateEntity e | SetEntity e => Some (entity_id e)
                 | _ => None
                 end) ops.

End SceneController.

End Scene.

Import Scene.

(** ** The host's message switch ([main.ts]) *)

Module Host.

Local Open Scope list_scope.

(** Modelled from the spec: the enumeration [Messaging.MessageType] of
    [messaging/MessageDefinitions], which is not among the sources; its
    members are the message types the specification names. *)
Inductive MessageType : Set :=
  | Open | Save | Load | Clear
  | OpenResult | ClearResult | RequestSave | UpdateRecentFiles.

Record ClearResultData : Set := mkClearResult {
  clear : bool;
  remember : bool
}.

(** The [data] of a message is untyped in the source; these are the shapes
    the switch sends and receives. *)
Inductive Payload : Set :=
  | DataString (s : string)
  | DataClearResult (r : ClearResultData).

Record Message : Set := mkMessage {
  msg_type : MessageType;
  msg_data : Payload
}.

Record SessionOptions : Set := mkSessionOptions {
  showClearDataDialog : bool
}.

(** [sessionOptions] as the process starts. *)
Definition sessionOptions_initial : SessionOptions := mkSessionOptions true.

Record MessageBoxOptions : Set := mkOptions {
  box_type : string;
  buttons : list string;
  defaultId : Z;
  title : string;
  message : string;
  detail : string;
  checkboxLabel : string;
  checkboxChecked : bool
}.

(** What the handler asks of its collaborators.  A callback is given by the
    messages it sends on the reply channel (the console output of the file
    callbacks is left out); the dialog's callback also reads and writes the
    session options, as they are when the dialog closes. *)
Inductive Effect : Type :=
  | Reply (m : Message)
  | SaveFile (content : Payload)
  | LoadFile (filePath : Payload) (callback : string → string → list Message)
  | OpenFile (callback : string → string → list Message)
  | ShowMessageBox (options : MessageBoxOptions)
      (callback : Z → bool → SessionOptions → SessionOptions * list Message).

Definition file_callback (path content : string) : list Message :=
  [mkMessage OpenResult (DataString content)].

Definition clear_options : MessageBoxOptions :=
  mkOptions "warning" ["Remove data"; "Cancel"] 2 "Remove data"
            "Are you sure you want to remove all existing data?"
            "This will remove all recorded data" "Don't ask again" false.

(** The callback handed to [dialog.showMessageBox]. *)
Definition clear_callback (response : Z) (checkboxChecked : bool)
    (sessionOptions : SessionOptions) : SessionOptions * list Message :=
  let shouldClear := response =? 0 in
  let sessionOptions :=
    if shouldClear && checkboxChecked then mkSessionOptions false
    else sessionOptions in
  (sessionOptions,
   [mkMessage ClearResult (DataClearResult (mkClearResult shouldClear checkboxChecked))]).

(** The listener of ['asynchronous-message']. *)
Definition on_message (sessionOptions : SessionOptions) (arg : Message)
  : SessionOptions * list Effect :=
  match msg_type arg with
  | Save => (sessionOptions, [SaveFile (msg_data arg)])
  | Load => (sessionOptions, [LoadFile (msg_data arg) file_callback])
  | Open => (sessionOptions, [OpenFile file_callback])
  | Clear =>
      if negb (showClearDataDialog sessionOptions) then
        (sessionOptions,
         [Reply (mkMessage ClearResult (DataClearResult (mkClearResult true true)))])
      else
        (sessionOptions, [ShowMessageBox clear_options clear_callback])
  | _ => (sessionOptions, [])
  end.

(** One exchange with a user who answers every message box with the
    button [response] and the checkbox [checked], the requests to the file
    manager (and the file dialogs it opens) left aside: the session options
    afterwards, the message boxes shown and the messages sent back. *)
Definition perform (response : Z) (checked : bool)
    (st : SessionOptions * list MessageBoxOptions * list Message) (e : Effect)
  : SessionOptions * list MessageBoxOptions * list Message :=
  let '(opts, shown, sent) := st in
  match e with
  | Reply m => (opts, shown, sent ++ [m])
  | ShowMessageBox options callback =>
      let '(opts', ms) := callback response checked opts in
      (opts', shown ++ [options], sent ++ ms)
  | _ => st
  end.

Definition exchange (response : Z) (checked : bool)
    (sessionOptions : SessionOptions) (arg : Message)
  : SessionOptions * list MessageBoxOptions * list Message :=
  let '(opts, effects) := on_message sessionOptions arg in
  foldl (perform response checked) (opts, [], []) effects.

(** The session options after a series of messages, each with the answer
    the user gives if a dialog is shown for it. *)
Definition options_after (sessionOptions : SessionOptions)
    (requests : list (Message * (Z * bool))) : SessionOptions :=
  foldl (fun opts '(arg, (response, checked)) =>
           (exchange response checked opts arg).1.1)
        sessionOptions requests.

End Host.

(** ** Sample scenes

    Entities with integer coordinates, for the scenarios. *)

Module Sample.

Definition Vec : Type := Z * Z * Z.

Record Entity : Type := mkEntity {
  ent_id : Z;
  ent_position : Vec
}.

Definition origin : Vec := (0, 0, 0).

Definition start : @SceneController Vec := initial origin.

(** The state after a sequence of operations on the fresh controller. *)
Definition exec (ops : list (@Op Entity)) : @SceneController Vec :=
  run origin ent_id ent_position ops start.

Definition entity1 : Entity := mkEntity 1 (0, 0, 0).
Definition entity2 : Entity := mkEntity 2 (1, 0, 0).
Definition entity3 : Entity := mkEntity 3 (2, 0, 0).
Definition entity5 : Entity := mkEntity 5 (4, 0, 0).
Definition entity_1e21 : Entity := mkEntity (10 ^ 21) (0, 0, 0).

(** Entity 5 is selected, then hovered. *)
Definition selected_then_hovered : list (@Op Entity) :=
  [SetEntity entity5; MarkEntityAsSelected 5; OnEntityHovered 5].

(** Frame N of the scenario: entities 1, 2 and 3. *)
Definition frame_n : list (@Op Entity) :=
  [SetEntity entity1; SetEntity entity2; SetEntity entity3].

(** Frame N, then the update pass of frame N+1 with entities 1 and 3. *)
Definition two_frames : list (@Op Entity) :=
  [SetEntity entity1; SetEntity entity2; SetEntity entity3;
   HideAllEntities; SetEntity entity1; SetEntity entity3].

(** [createEntity] called twice for entity 5. *)
Definition created_twice : list (@Op Entity) :=
  [CreateEntity entity5; CreateEntity entity5].

End Sample.

(** * Properties *)

(** ** The Clear exchange *)

Module HostFacts.
Import Host.

Lemma exchange_clear_shown response checked opts d :
  showClearDataDialog opts = true →
  exchange response checked opts (mkMessage Clear d)
  = (if (response =? 0) && checked then mkSessionOptions false else opts,
     [clear_options],
     [mkMessage ClearResult
        (DataClearResult (mkClearResult (response =? 0) checked))]).
Proof.
  intros Hshow. unfold exchange, on_message. simpl. rewrite Hshow. reflexivity.
Qed.

Lemma exchange_clear_skipped response checked opts d :
  showClearDataDialog opts = false →
  exchange response checked opts (mkMessage Clear d)
  = (opts, [], [mkMessage ClearResult (DataClearResult (mkClearResult true true))]).
Proof.
  intros Hshow. unfold exchange, on_message. simpl. rewrite Hshow. reflexivity.
Qed.

(** C2, as the code has it: a [Clear] message is answered by exactly one
    [ClearResult].  While the dialog is enabled it is shown once, [clear]
    tells whether button 0 was pressed and [remember] is the checkbox, and
    the dialog is disabled for the rest of the session exactly when the
    user both pressed button 0 and ticked the checkbox.  Once disabled, no
    dialog is shown, the answer is [{clear: true, remember: true}] and the
    options stay as they are. *)
Theorem clear_protocol (opts : SessionOptions) (response : Z) (checked : bool)
    (d : Payload) :
  let '(opts', shown, sent) := exchange response checked opts (mkMessage Clear d) in
  if showClearDataDialog opts then
    shown = [clear_options]
    ∧ sent = [mkMessage ClearResult
                (DataClearResult (mkClearResult (response =? 0) checked))]
    ∧ (showClearDataDialog opts' = false ↔ response = 0 ∧ checked = true)
  else
    shown = [] ∧ opts' = opts
    ∧ sent = [mkMessage ClearResult (DataClearResult (mkClearResult true true))].
Proof.
  destruct (showClearDataDialog opts) eqn:Hshow.
  - rewrite exchange_clear_shown by exact Hshow.
    split; [reflexivity | split; [reflexivity |]].
    destruct (Z.eqb_spec response 0) as [-> | Hne], checked; simpl;
      rewrite ?Hshow; intuition congruence.
  - rewrite exchange_clear_skipped by exact Hshow. auto.
Qed.

(** C2 as stated fails: the user presses "Cancel" with "Don't ask again"
    ticked; the answer carries [remember = true], but the dialog stays
    enabled. *)
Lemma clear_cancel_keeps_dialog :
  let '(opts', shown, sent) :=
    exchange 1 true sessionOptions_initial (mkMessage Clear (DataString EmptyString)) in
  shown = [clear_options]
  ∧ sent = [mkMessage ClearResult (DataClearResult (mkClearResult false true))]
  ∧ showClearDataDialog opts' = true.
Proof. vm_compute. auto. Qed.

(** *** The session options over a series of messages *)

Lemma exchange_other response checked opts arg :
  msg_type arg ≠ Clear →
  (exchange response checked opts arg).1 = (opts, []).
Proof.
  intros Hne. unfold exchange, on_message.
  by destruct (msg_type arg).
Qed.

Lemma exchange_keeps_disabled response checked opts arg :
  showClearDataDialog opts = false →
  showClearDataDialog (exchange response checked opts arg).1.1 = false.
Proof.
  intros Hoff. destruct arg as [t d]. destruct t;
    try (by rewrite exchange_other).
  by rewrite exchange_clear_skipped.
Qed.

Lemma options_after_keeps_disabled opts requests :
  showClearDataDialog opts = false →
  showClearDataDialog (options_after opts requests) = false.
Proof.
  revert opts. induction requests as [|[arg [r ch]] requests IH];
    intros opts Hoff; [done|].
  simpl. apply IH. by apply exchange_keeps_disabled.
Qed.

(** Once the user has confirmed a [Clear] with "Don't ask again" ticked,
    every later [Clear] of the session, whatever messages and answers come
    in between, is answered [{clear: true, remember: true}] at once, and no
    dialog is shown. *)
Theorem opt_out_is_permanent (opts : SessionOptions) (d d' : Payload)
    (requests : list (Message * (Z * bool))) (response : Z) (checked : bool) :
  let opts1 := (exchange 0 true opts (mkMessage Clear d)).1.1 in
  let opts2 := options_after opts1 requests in
  exchange response checked opts2 (mkMessage Clear d')
  = (opts2, [],
     [mkMessage ClearResult (DataClearResult (mkClearResult true true))]).
Proof.
  intros opts1 opts2. apply exchange_clear_skipped.
  apply options_after_keeps_disabled. unfold opts1.
  destruct (showClearDataDialog opts) eqn:Hshow.
  - by rewrite exchange_clear_shown.
  - by rewrite exchange_clear_skipped.
Qed.

(** The listener calls [dialog.showMessageBox] for a [Clear] message only,
    while the confirmation is enabled, and then once, with the options of
    the clear-data box (the file dialogs of [Open] are the file manager's
    and are not counted here); and only a [Clear] confirmed with button 0
    and the checkbox ticked, while the confirmation is enabled, changes the
    session options: nothing enables the confirmation again. *)
Theorem options_change_only_on_confirmed_clear (opts : SessionOptions)
    (arg : Message) (response : Z) (checked : bool) :
  let '(opts', shown, sent) := exchange response checked opts arg in
  (opts' ≠ opts →
     msg_type arg = Clear ∧ response = 0 ∧ checked = true
     ∧ showClearDataDialog opts = true ∧ showClearDataDialog opts' = false)
  ∧ (shown ≠ [] →
     msg_type arg = Clear ∧ showClearDataDialog opts = true
     ∧ shown = [clear_options]).
Proof.
  destruct arg as [t d].
  assert (t = Clear ∨ t ≠ Clear) as [-> | Hne]
    by (destruct t; first [by left | by right]).
  - destruct (showClearDataDialog opts) eqn:Hshow.
    + rewrite exchange_clear_shown by done.
      split; [|done]. intros Hchange.
      destruct (Z.eqb_spec response 0) as [-> | ?], checked; simpl in *;
        done.
    + rewrite exchange_clear_skipped by done. done.
  - pose proof (exchange_other response checked opts (mkMessage t d) Hne)
      as Heq.
    destruct (exchange response checked opts (mkMessage t d))
      as [[opts' shown] sent].
    simpl in Heq. by injection Heq as -> ->.
Qed.

End HostFacts.

(** ** Numbers and strings *)

Module JSFacts.
Import JS.

Ltac digit_cases d :=
  let H := fresh "Hd" in
  assert (d = 0 ∨ d = 1 ∨ d = 2 ∨ d = 3 ∨ d = 4 ∨ d = 5 ∨ d = 6 ∨ d = 7
          ∨ d = 8 ∨ d = 9) as H by lia;
  destruct H as [-> | [-> | [-> | [-> | [-> | [-> | [-> | [-> | [-> | ->]]]]]]]]].

Lemma digit_value_char d : 0 <= d < 10 → digit_value 10 (digit_char d) = Some d.
Proof. intros Hd. digit_cases d; reflexivity. Qed.

Lemma digits_value_cons radix c s a d :
  digit_value radix c = Some d →
  digits_value radix (String c s) a = digits_value radix s (radix * a + d).
Proof. intros Hc. cbn [digits_value]. by rewrite Hc. Qed.

Lemma all_digits_aux fuel n acc :
  0 <= n → all_digits acc → all_digits (digits_aux fuel n acc).
Proof.
  revert n acc. induction fuel as [|f IH]; intros n acc Hn Hacc; [done|].
  cbn [digits_aux].
  assert (all_digits (String (digit_char (n mod 10)) acc)) as Hacc'.
  { constructor; [|done]. apply Z.mod_pos_bound. lia. }
  destruct (n <? 10); [done|]. apply IH; [|done].
  apply Z.div_pos; lia.
Qed.

Lemma digits_aux_cons fuel n acc :
  ∃ c s, digits_aux (S fuel) n acc = String c s.
Proof.
  revert n acc. induction fuel as [|f IH]; intros n acc.
  - cbn [digits_aux]. destruct (n <? 10); eauto.
  - change (digits_aux (S (S f)) n acc)
      with (let acc' := String (digit_char (n mod 10)) acc in
            if n <? 10 then acc' else digits_aux (S f) (n / 10) acc').
    cbv zeta. destruct (n <? 10); eauto.
Qed.

(** Reading back the digits written by [digits_aux]. *)
Lemma digits_value_aux fuel n acc :
  0 <= n < 10 ^ Z.of_nat fuel →
  ∃ k, 0 <= k ∧ ∀ a,
    digits_value 10 (digits_aux fuel n acc) a
    = digits_value 10 acc (a * 10 ^ k + n).
Proof.
  revert n acc. induction fuel as [|f IH]; intros n acc Hn.
  - cbn [digits_aux]. change (10 ^ Z.of_nat 0) with 1 in Hn.
    exists 0. split; [lia|]. intros a. f_equal. lia.
  - cbn [digits_aux].
    assert (0 <= n mod 10 < 10) as Hmod by (apply Z.mod_pos_bound; lia).
    destruct (n <? 10) eqn:Hlt.
    + apply Z.ltb_lt in Hlt. exists 1. split; [lia|]. intros a.
      rewrite (digits_value_cons 10 _ _ _ (n mod 10))
        by (by apply digit_value_char).
      f_equal. rewrite Z.mod_small by lia. lia.
    + apply Z.ltb_ge in Hlt.
      destruct (IH (n / 10) (String (digit_char (n mod 10)) acc))
        as (k & Hk & Heq).
      * split; [apply Z.div_pos; lia|].
        apply Z.div_lt_upper_bound; [lia|].
        rewrite Nat2Z.inj_succ, Z.pow_succ_r in Hn by lia. lia.
      * exists (k + 1). split; [lia|]. intros a. rewrite Heq.
        rewrite (digits_value_cons 10 _ _ _ (n mod 10))
          by (by apply digit_value_char).
        f_equal. rewrite Z.pow_add_r by lia.
        pose proof (Z.div_mod n 10). lia.
Qed.

Lemma fuel_enough n : 0 <= n → n < 10 ^ Z.of_nat (S (Z.to_nat (Z.log2 n))).
Proof.
  intros Hn. rewrite Nat2Z.inj_succ, Z2Nat.id by apply Z.log2_nonneg.
  destruct (Z.eq_dec n 0) as [-> | Hne]; [done|].
  pose proof (Z.log2_spec n ltac:(lia)) as [_ Hlt].
  eapply Z.lt_le_trans; [exact Hlt|].
  apply Z.pow_le_mono_l. lia.
Qed.

Lemma digits_value_decimal n :
  0 <= n → digits_value 10 (decimal_digits n) 0 = n.
Proof.
  intros Hn. unfold decimal_digits.
  destruct (digits_value_aux (S (Z.to_nat (Z.log2 n))) n EmptyString) as (k & _ & Heq).
  - split; [done|]. by apply fuel_enough.
  - rewrite Heq. cbn [digits_value]. lia.
Qed.

Lemma all_digits_decimal n : 0 <= n → all_digits (decimal_digits n).
Proof. intros Hn. apply all_digits_aux; [done | constructor]. Qed.

(** A string of digits is read in radix 10, as it stands. *)
Lemma parse_unsigned_digits c s :
  all_digits (String c s) →
  parse_unsigned (String c s) = Some (digits_value 10 (String c s) 0).
Proof.
  intros Hall. inversion Hall as [|d s0 Hd Hs Heq]; subst.
  destruct Hs as [|d' s' Hd' Hs'].
  - digit_cases d; reflexivity.
  - digit_cases d; digit_cases d'; reflexivity.
Qed.

Lemma parseInt_digit_first d s :
  0 <= d < 10 →
  parseInt (String (digit_char d) s)
  = round_double <$> parse_unsigned (String (digit_char d) s).
Proof. intros Hd. digit_cases d; reflexivity. Qed.

Lemma parseInt_digits c s :
  all_digits (String c s) →
  parseInt (String c s) = Some (round_double (digits_value 10 (String c s) 0)).
Proof.
  intros Hall. pose proof (parse_unsigned_digits c s Hall) as Hparse.
  inversion Hall as [|d s0 Hd Hs Heq]; subst.
  rewrite parseInt_digit_first by done. by rewrite Hparse.
Qed.

Lemma parseInt_decimal n :
  0 <= n → parseInt (decimal_digits n) = Some (round_double n).
Proof.
  intros Hn. destruct (digits_aux_cons (Z.to_nat (Z.log2 n)) n EmptyString) as (c & s & Heq).
  pose proof (all_digits_decimal n Hn) as Hall.
  pose proof (digits_value_decimal n Hn) as Hval.
  unfold decimal_digits in *. rewrite Heq in *.
  rewrite parseInt_digits by done. by rewrite Hval.
Qed.

Lemma parseInt_minus_decimal n :
  0 <= n → parseInt ("-" ++ decimal_digits n) = Some (round_double (- n)).
Proof.
  intros Hn. destruct (digits_aux_cons (Z.to_nat (Z.log2 n)) n EmptyString) as (c & s & Heq).
  pose proof (all_digits_decimal n Hn) as Hall.
  pose proof (digits_value_decimal n Hn) as Hval.
  unfold decimal_digits in *. rewrite Heq in *.
  change (parseInt ("-" ++ String c s))
    with ((fun v => round_double (- v)) <$> parse_unsigned (String c s)).
  rewrite parse_unsigned_digits by done. by rewrite Hval.
Qed.

(** *** Rounding and the shortest digits *)

Lemma round_double_opp z : round_double (- z) = - round_double z.
Proof.
  unfold round_double. rewrite Z.abs_opp, Z.sgn_opp.
  destruct (Z.abs z <? 2 ^ 53); [done|]. lia.
Qed.

Lemma is_number_opp z : is_number z → is_number (- z).
Proof. unfold is_number. rewrite round_double_opp. lia. Qed.

Lemma round_double_small z : Z.abs z < 2 ^ 53 → round_double z = z.
Proof.
  intros Hz. unfold round_double.
  by rewrite (proj2 (Z.ltb_lt _ _) Hz).
Qed.

(** [10 ^ 21] is a number, and rounding is monotone across it. *)
Lemma round_double_ge_1e21 y : 10 ^ 21 <= y → 10 ^ 21 <= round_double y.
Proof.
  intros Hy. unfold round_double.
  assert (Z.abs y = y) as -> by lia.
  assert (Z.sgn y = 1) as -> by lia.
  assert (2 ^ 53 <= y) as H53 by lia.
  rewrite (proj2 (Z.ltb_ge _ _) H53).
  assert (69 <= Z.log2 y) as Hlog.
  { change 69 with (Z.log2 (10 ^ 21)). by apply Z.log2_le_mono. }
  pose proof (Z.log2_spec y ltac:(lia)) as [Hlow _].
  remember (Z.log2 y - 52) as e eqn:He.
  assert (17 <= e) as He17 by lia.
  rewrite Z.shiftr_div_pow2, Z.shiftl_mul_pow2 by lia.
  set (q := y / 2 ^ e).
  assert (0 < 2 ^ e) as Hpos by (apply Z.pow_pos_nonneg; lia).
  assert (10 ^ 21 <= q * 2 ^ e) as Hq.
  { destruct (Z_le_gt_dec e 21) as [Hle | Hgt].
    - assert (10 ^ 21 / 2 ^ e <= q) as Hdiv
        by (apply Z.div_le_mono; lia).
      assert (10 ^ 21 / 2 ^ e * 2 ^ e = 10 ^ 21) as Hexact.
      { assert (e = 17 ∨ e = 18 ∨ e = 19 ∨ e = 20 ∨ e = 21) as Hcases by lia.
        clear - Hcases.
        destruct Hcases as [-> | [-> | [-> | [-> | ->]]]]; reflexivity. }
      rewrite <- Hexact. apply Z.mul_le_mono_nonneg_r; lia.
    - assert (2 ^ 52 <= q) as Hq52.
      { apply Z.div_le_lower_bound; [done|].
        rewrite <- Z.pow_add_r by lia.
        replace (e + 52) with (Z.log2 y) by lia. done. }
      assert (2 ^ 22 <= 2 ^ e) as He22 by (apply Z.pow_le_mono_r; lia).
      transitivity (2 ^ 52 * 2 ^ 22); [vm_compute; discriminate|].
      apply Z.mul_le_mono_nonneg; lia. }
  assert (0 <= q) as Hq0 by (apply Z.div_pos; lia).
  destruct ((2 ^ (e - 1) <? Z.land y (Z.ones e))
            || ((Z.land y (Z.ones e) =? 2 ^ (e - 1)) && Z.odd q)); nia.
Qed.

Lemma candidate_sound x d k y :
  candidate x d k = Some y → round_double y = x.
Proof.
  unfold candidate.
  destruct (round_double (x / 10 ^ (d - k) * 10 ^ (d - k)) =? x) eqn:Hlo;
    destruct (round_double (x / 10 ^ (d - k) * 10 ^ (d - k) + 10 ^ (d - k)) =? x)
      eqn:Hhi; simpl;
    try destruct (_ || _); intros [= <-];
    first [by apply Z.eqb_eq in Hlo | by apply Z.eqb_eq in Hhi].
Qed.

Lemma candidate_range x d k y :
  0 < x < 10 ^ 21 → candidate x d k = Some y → 0 <= y < 10 ^ 21.
Proof.
  intros Hx Hcand. pose proof (candidate_sound x d k y Hcand) as Hround.
  assert (0 <= 10 ^ (d - k)) as Hp by (apply Z.pow_nonneg; lia).
  assert (0 <= x / 10 ^ (d - k) * 10 ^ (d - k) <= x) as Hlo.
  { destruct (Z.eq_dec (10 ^ (d - k)) 0) as [-> | Hne].
    - rewrite Z.mul_0_r. lia.
    - split.
      + apply Z.mul_nonneg_nonneg; [apply Z.div_pos|]; lia.
      + rewrite Z.mul_comm. apply Z.mul_div_le. lia. }
  assert (0 <= y) as Hy0.
  { unfold candidate in Hcand.
    repeat match type of Hcand with
           | (if ?b then _ else _) = _ => destruct b
           end; simplify_eq; lia. }
  split; [done|].
  destruct (Z_lt_ge_dec y (10 ^ 21)) as [? | Hge]; [done|].
  pose proof (round_double_ge_1e21 y ltac:(lia)). lia.
Qed.

Lemma shortest_from_spec fuel x d k :
  0 < x < 10 ^ 21 → is_number x →
  round_double (shortest_from fuel x d k) = x
  ∧ 0 <= shortest_from fuel x d k < 10 ^ 21.
Proof.
  intros Hx Hnum. revert k. induction fuel as [|f IH]; intros k.
  - simpl. split; [done | lia].
  - simpl. destruct (candidate x d k) as [y|] eqn:Hcand; [|apply IH].
    split; [by eapply candidate_sound | by eapply candidate_range].
Qed.

Lemma length_digits_aux fuel n acc k :
  0 <= n < 10 ^ Z.of_nat k → (1 <= k)%nat →
  (String.length (digits_aux fuel n acc) <= String.length acc + k)%nat.
Proof.
  revert n acc k. induction fuel as [|f IH]; intros n acc k Hn Hk.
  - simpl. lia.
  - cbn [digits_aux]. destruct (n <? 10) eqn:Hlt.
    + simpl. lia.
    + apply Z.ltb_ge in Hlt.
      destruct k as [|[|k]]; [lia | simpl in Hn; lia |].
      etransitivity.
      * apply (IH _ _ (S k)); [|lia]. split; [apply Z.div_pos; lia|].
        apply Z.div_lt_upper_bound; [lia|].
        rewrite (Nat2Z.inj_succ (S k)), Z.pow_succ_r in Hn by lia. lia.
      * simpl. lia.
Qed.

Lemma num_digits_le y : 0 <= y < 10 ^ 21 → num_digits y <= 21.
Proof.
  intros Hy. unfold num_digits, decimal_digits.
  pose proof (length_digits_aux (S (Z.to_nat (Z.log2 y))) y EmptyString 21 Hy
                ltac:(lia)) as Hlen.
  simpl String.length in Hlen at 2. lia.
Qed.

Lemma positive_to_string_decimal x :
  0 < x < 10 ^ 21 → is_number x →
  ∃ y, 0 <= y ∧ round_double y = x ∧ positive_to_string x = decimal_digits y.
Proof.
  intros Hx Hnum. exists (shortest x).
  destruct (shortest_from_spec (Z.to_nat (num_digits x - 1)) x (num_digits x) 1
              Hx Hnum) as [Hround Hrange].
  fold (shortest x) in Hround, Hrange.
  split; [lia|]. split; [done|].
  unfold positive_to_string.
  by rewrite (proj2 (Z.leb_le _ _) (num_digits_le _ Hrange)).
Qed.

(** The stamp of an integer number below [10 ^ 21] in absolute value
    reads back as that number. *)
Lemma parseInt_number_to_string x :
  is_number x → Z.abs x < 10 ^ 21 → parseInt (number_to_string x) = Some x.
Proof.
  intros Hnum Hx. unfold number_to_string.
  destruct (Z.eqb_spec x 0) as [-> | Hne]; [reflexivity|].
  destruct (Z.ltb_spec x 0) as [Hneg | Hpos].
  - destruct (positive_to_string_decimal (- x)) as (y & Hy & Hround & ->).
    + lia.
    + by apply is_number_opp.
    + rewrite parseInt_minus_decimal by done.
      rewrite round_double_opp, Hround. f_equal. lia.
  - destruct (positive_to_string_decimal x) as (y & Hy & Hround & ->).
    + lia.
    + done.
    + rewrite parseInt_decimal by done. by rewrite Hround.
Qed.

(** Two integer numbers below [10 ^ 21] with the same stamp are equal. *)
Lemma number_to_string_inj x y :
  is_number x → Z.abs x < 10 ^ 21 → is_number y → Z.abs y < 10 ^ 21 →
  number_to_string x = number_to_string y → x = y.
Proof.
  intros Hx Hxlt Hy Hylt Heq.
  pose proof (parseInt_number_to_string x Hx Hxlt) as Hpx.
  pose proof (parseInt_number_to_string y Hy Hylt) as Hpy.
  rewrite Heq, Hpy in Hpx. by injection Hpx.
Qed.

End JSFacts.

(** ** The scene controller *)

Section SceneProperties.

Local Open Scope list_scope.

Context {Vector3 : Type} (Vector3_Zero : Vector3).
Context {IEntity : Type} (entity_id : IEntity → Z).
Context (getEntityPosition : IEntity → Vector3).

Abbreviation Mesh := (@Mesh Vector3).
Abbreviation SceneController := (@SceneController Vector3).
Abbreviation Op := (@Op IEntity).
Abbreviation initial := (initial Vector3_Zero).
Abbreviation createEntity := (createEntity Vector3_Zero entity_id).
Abbreviation setEntity := (setEntity Vector3_Zero entity_id getEntityPosition).
Abbreviation run_op := (run_op Vector3_Zero entity_id getEntityPosition).
Abbreviation run := (run Vector3_Zero entity_id getEntityPosition).
Abbreviation reachable := (reachable Vector3_Zero entity_id getEntityPosition).
Abbreviation guard := (guard entity_id).
Abbreviation guarded := (guarded Vector3_Zero entity_id getEntityPosition).
Abbreviation pass_step := (pass_step entity_id).
Abbreviation place := (place getEntityPosition).
Abbreviation update_pass :=
  (update_pass Vector3_Zero entity_id getEntityPosition).
Abbreviation passed_ids := (passed_ids entity_id).
Abbreviation keeps_identity := (@keeps_identity Vector3).
Abbreviation latest_pass := (latest_pass entity_id).
Abbreviation grid := (grid Vector3_Zero).

Implicit Types (c : SceneController) (m : Mesh) (h : nat) (id : Z)
  (e : IEntity) (o : Op) (ops : list Op).

(** *** Mesh updates *)

Lemma lookup_alter_mesh (f : Mesh → Mesh) h i (ms : list Mesh) :
  alter f h ms !! i = if decide (h = i) then f <$> ms !! i else ms !! i.
Proof.
  rewrite list_lookup_alter. by case_decide; subst.
Qed.

Lemma lookup_update_mesh f h i c :
  scene_meshes (update_mesh h f c) !! i
  = if decide (h = i) then f <$> scene_meshes c !! i else scene_meshes c !! i.
Proof. apply lookup_alter_mesh. Qed.

Lemma update_mesh_twice f g h c :
  update_mesh h f (update_mesh h g c) = update_mesh h (f ∘ g) c.
Proof.
  unfold update_mesh, with_meshes. simpl. f_equal.
  apply list_alter_alter_eq.
Qed.

Lemma update_mesh_ext f g h c :
  (∀ m, f m = g m) → update_mesh h f c = update_mesh h g c.
Proof.
  intros Hfg. unfold update_mesh, with_meshes. f_equal.
  apply list_alter_ext; auto.
Qed.

(** *** [setEntity] *)

Lemma setEntity_known e c h :
  entities c !! entity_id e = Some h →
  setEntity e c = update_mesh h (place e) c.
Proof.
  intros Hget. unfold Scene.setEntity. rewrite Hget.
  apply update_mesh_twice.
Qed.

Lemma setEntity_new e c :
  entities c !! entity_id e = None →
  setEntity e c
  = update_mesh (length (scene_meshes c)) (place e) (createEntity e c).2.
Proof.
  intros Hget. unfold Scene.setEntity. rewrite Hget.
  apply update_mesh_twice.
Qed.

Lemma place_twice e m : place e (place e m) = place e m.
Proof. reflexivity. Qed.

(** C8: a second [setEntity] with the same entity changes nothing: the
    scene (position and enabled flag of every mesh), the entity map and
    the back-references are those left by the first call. *)
Theorem setEntity_idempotent e c :
  setEntity e (setEntity e c) = setEntity e c.
Proof.
  destruct (entities c !! entity_id e) as [h|] eqn:Hget.
  - rewrite (setEntity_known e c h Hget).
    rewrite (setEntity_known e _ h) by exact Hget.
    rewrite update_mesh_twice. apply update_mesh_ext, place_twice.
  - rewrite (setEntity_new e c Hget).
    rewrite (setEntity_known e _ (length (scene_meshes c))).
    + rewrite update_mesh_twice. apply update_mesh_ext, place_twice.
    + simpl. apply lookup_insert_eq.
Qed.

(** *** [hideAllEntities] *)

Lemma hide_fold_fields hs c :
  entities (hide_fold hs c) = entities c
  ∧ selectedEntity (hide_fold hs c) = selectedEntity c
  ∧ hoveredEntity (hide_fold hs c) = hoveredEntity c.
Proof.
  revert c. induction hs as [|a hs IH]; intros c; [done|].
  simpl. destruct (IH (update_mesh a (setEnabled false) c)) as (-> & -> & ->).
  done.
Qed.

Lemma hide_fold_lookup hs c i :
  scene_meshes (hide_fold hs c) !! i
  = if decide (i ∈ hs) then setEnabled false <$> scene_meshes c !! i
    else scene_meshes c !! i.
Proof.
  revert c. induction hs as [|a hs IH]; intros c.
  - done.
  - simpl. rewrite IH, lookup_update_mesh.
    destruct (decide (i ∈ hs)) as [H1|H1], (decide (a = i)) as [H2|H2],
      (decide (i ∈ a :: hs)) as [H3|H3];
      try (by destruct (scene_meshes c !! i));
      rewrite elem_of_cons in H3; intuition congruence.
Qed.

Lemma elem_of_entity_values c h :
  h ∈ entity_values c ↔ ∃ id, entities c !! id = Some h.
Proof.
  unfold entity_values. rewrite list_elem_of_fmap. split.
  - intros [[id h'] [-> Hin]]. exists id. by apply elem_of_map_to_list.
  - intros [id Hid]. exists (id, h). split; [done|].
    by apply elem_of_map_to_list.
Qed.

Lemma hideAllEntities_lookup c i :
  scene_meshes (hideAllEntities c) !! i
  = if decide (i ∈ entity_values c) then setEnabled false <$> scene_meshes c !! i
    else scene_meshes c !! i.
Proof. apply hide_fold_lookup. Qed.

Lemma hideAllEntities_fields c :
  entities (hideAllEntities c) = entities c
  ∧ selectedEntity (hideAllEntities c) = selectedEntity c
  ∧ hoveredEntity (hideAllEntities c) = hoveredEntity c.
Proof. apply hide_fold_fields. Qed.

(** *** Unknown ids *)

(** C5: for an id that has no mesh in the entity map (as is every id that
    no [createEntity] or [setEntity] call has received, see
    [never_passed_untracked] below), [markEntityAsSelected] and
    [onEntityHovered] return the controller as it was: no material, no
    back-reference and no other part of the state changes (both functions
    are total: nothing is raised). *)
Theorem unknown_id_noop c id :
  entities c !! id = None →
  markEntityAsSelected id c = c ∧ onEntityHovered id c = c.
Proof.
  intros Hnone. unfold markEntityAsSelected, onEntityHovered.
  rewrite Hnone. done.
Qed.

(** *** Frame of the visibility operations *)


Lemma setEntity_frame e c :
  selectedEntity (setEntity e c) = selectedEntity c
  ∧ hoveredEntity (setEntity e c) = hoveredEntity c
  ∧ (∀ id, id ≠ entity_id e →
       entities (setEntity e c) !! id = entities c !! id)
  ∧ (is_Some (entities c !! entity_id e) →
       entities (setEntity e c) = entities c)
  ∧ (∀ h m, scene_meshes c !! h = Some m →
       ∃ m', scene_meshes (setEntity e c) !! h = Some m'
             ∧ same_but_placement m m'
             ∧ (entities c !! entity_id e ≠ Some h → m' = m)).
Proof.
  destruct (entities c !! entity_id e) as [t|] eqn:Hget.
  - rewrite (setEntity_known e c t Hget). simpl.
    repeat split; try done.
    intros h m Hm. rewrite lookup_alter_mesh, Hm.
    case_decide as Ht; subst; simpl.
    + eexists; split; [done|]. split; [by eexists _, _ | congruence].
    + exists m. split; [done|]. split; [|done].
      exists (mesh_enabled m), (mesh_position m). by destruct m.
  - rewrite (setEntity_new e c Hget). simpl.
    repeat split; try done.
    + intros id Hid. by rewrite lookup_insert_ne.
    + intros h m Hm. rewrite lookup_alter_mesh.
      pose proof (lookup_lt_Some _ _ _ Hm) as Hlt.
      rewrite decide_False by lia.
      rewrite lookup_app_l by done. exists m. split; [done|]. split; [|done].
      exists (mesh_enabled m), (mesh_position m). by destruct m.
Qed.




(** *** Invariants of the reachable states *)

Lemma keeps_identity_material mat : keeps_identity (set_material mat).
Proof. by intros m. Qed.

Lemma keeps_identity_enabled b : keeps_identity (setEnabled b).
Proof. by intros m. Qed.

Lemma keeps_identity_place e : keeps_identity (place e).
Proof. by intros m. Qed.

Lemma entity_mesh_update f h c i :
  keeps_identity f → entity_mesh (update_mesh h f c) i ↔ entity_mesh c i.
Proof.
  intros Hf. unfold entity_mesh. rewrite lookup_update_mesh.
  case_decide as Hi; [|done]. subst.
  destruct (scene_meshes c !! i) as [m|]; simpl; [|naive_solver].
  destruct (Hf m) as [Hp _]. split.
  - intros (m' & [= <-] & Hm'). exists m. by rewrite <- Hp.
  - intros (m' & [= <-] & Hm'). exists (f m). by rewrite Hp.
Qed.

Lemma coherent_update f h c :
  keeps_identity f → coherent c → coherent (update_mesh h f c).
Proof.
  intros Hf [Hent Hinj Hsel Hhov]. split; simpl.
  - intros id t Hid. destruct (Hent id t Hid) as (m & Hm & Hp & Hstamp).
    rewrite lookup_alter_mesh, Hm. case_decide; simpl; [|by exists m].
    exists (f m). destruct (Hf m) as [-> ->]. done.
  - exact Hinj.
  - intros t Ht. apply entity_mesh_update; auto.
  - intros t Ht. apply entity_mesh_update; auto.
Qed.

Lemma coherent_refs c sel hov :
  coherent c →
  (∀ h, sel = Some h → entity_mesh c h) →
  (∀ h, hov = Some h → entity_mesh c h) →
  coherent (mkController (scene_meshes c) (entities c) sel hov).
Proof. intros [Hent Hinj _ _] Hsel Hhov. by split. Qed.

Lemma coherent_tracked c id h :
  coherent c → entities c !! id = Some h → entity_mesh c h.
Proof.
  intros Hc Hid. destruct (coh_entities c Hc id h Hid) as (m & ? & ? & _).
  by exists m.
Qed.

Lemma entity_mesh_lt c h : entity_mesh c h → (h < length (scene_meshes c))%nat.
Proof. intros (m & Hm & _). by eapply lookup_lt_Some. Qed.

Lemma coherent_initial : coherent initial.
Proof. by split. Qed.

Lemma entity_mesh_create e c h :
  entity_mesh c h → entity_mesh (createEntity e c).2 h.
Proof.
  intros (m & Hm & Hp). exists m. split; [|done]. simpl.
  rewrite lookup_app_l; [done|]. by eapply lookup_lt_Some.
Qed.

Lemma coherent_create e c : coherent c → coherent (createEntity e c).2.
Proof.
  intros Hc. pose proof Hc as [Hent Hinj Hsel Hhov]. split; simpl.
  - intros id t. rewrite lookup_insert. case_decide as Hid.
    + intros [= <-]. subst. eexists.
      split; [by rewrite lookup_app_r, Nat.sub_diag | done].
    + intros Ht. destruct (Hent id t Ht) as (m & Hm & Hrest).
      exists m. split; [|done].
      rewrite lookup_app_l; [done|]. by eapply lookup_lt_Some.
  - intros i j t. rewrite !lookup_insert.
    repeat case_decide; simplify_eq; try done.
    + intros [= <-] Hj. apply (coherent_tracked c _ _ Hc) in Hj.
      apply entity_mesh_lt in Hj. lia.
    + intros Hi [= <-]. apply (coherent_tracked c _ _ Hc) in Hi.
      apply entity_mesh_lt in Hi. lia.
    + apply Hinj.
  - intros t Ht. apply (entity_mesh_create e c), Hsel, Ht.
  - intros t Ht. apply (entity_mesh_create e c), Hhov, Ht.
Qed.

Lemma coherent_setEntity e c : coherent c → coherent (setEntity e c).
Proof.
  intros Hc. destruct (entities c !! entity_id e) as [h|] eqn:Hget.
  - rewrite (setEntity_known e c h Hget).
    apply coherent_update; auto using keeps_identity_place.
  - rewrite (setEntity_new e c Hget).
    apply coherent_update; auto using keeps_identity_place, coherent_create.
Qed.

Lemma coherent_hide_fold hs c : coherent c → coherent (hide_fold hs c).
Proof.
  revert c. induction hs as [|a hs IH]; intros c Hc; [done|].
  simpl. apply IH, coherent_update; auto using keeps_identity_enabled.
Qed.

Lemma coherent_markEntityAsSelected id c :
  coherent c → coherent (markEntityAsSelected id c).
Proof.
  intros Hc. unfold markEntityAsSelected.
  destruct (entities c !! id) as [t|] eqn:Hid; [|done].
  set (c1 := match selectedEntity c with
             | Some prev => update_mesh prev (set_material entityMaterial) c
             | None => c end).
  assert (coherent c1) as Hc1.
  { unfold c1. destruct (selectedEntity c);
      auto using coherent_update, keeps_identity_material. }
  assert (entities c1 = entities c ∧ hoveredEntity c1 = hoveredEntity c)
    as [He1 Hh1] by (unfold c1; by destruct (selectedEntity c)).
  set (c2 := update_mesh t (set_material selectedMaterial) c1).
  assert (coherent c2) as Hc2
    by (apply coherent_update; auto using keeps_identity_material).
  apply (coherent_refs c2); [done| |].
  - intros h [= <-]. apply (coherent_tracked c2 id); [done|].
    simpl. by rewrite He1.
  - apply (coh_hovered c2 Hc2).
Qed.

Lemma coherent_restore_hovered c : coherent c → coherent (restore_hovered c).
Proof.
  intros Hc. unfold restore_hovered. destruct (hoveredEntity c); [|done].
  case_decide; auto using coherent_update, keeps_identity_material.
Qed.

Lemma restore_hovered_fields c :
  entities (restore_hovered c) = entities c
  ∧ selectedEntity (restore_hovered c) = selectedEntity c
  ∧ hoveredEntity (restore_hovered c) = hoveredEntity c.
Proof.
  unfold restore_hovered. destruct (hoveredEntity c) eqn:Hh; [|done].
  by case_decide.
Qed.

Lemma coherent_onEntityHovered id c :
  coherent c → coherent (onEntityHovered id c).
Proof.
  intros Hc. unfold onEntityHovered.
  destruct (entities c !! id) as [t|] eqn:Hid; [|done].
  pose proof (coherent_restore_hovered c Hc) as Hc1.
  destruct (restore_hovered_fields c) as (He1 & Hs1 & Hh1).
  set (c2 := update_mesh t (set_material hoveredMaterial) (restore_hovered c)).
  assert (coherent c2) as Hc2
    by (apply coherent_update; auto using keeps_identity_material).
  apply (coherent_refs c2); [done| |].
  - apply (coh_selected c2 Hc2).
  - intros h [= <-]. apply (coherent_tracked c2 id); [done|].
    simpl. by rewrite He1.
Qed.

Lemma coherent_onEntityStopHovered c :
  coherent c → coherent (onEntityStopHovered c).
Proof.
  intros Hc. unfold onEntityStopHovered.
  pose proof (coherent_restore_hovered c Hc) as Hc1.
  apply (coherent_refs (restore_hovered c)); [done| |done].
  apply (coh_selected _ Hc1).
Qed.

Lemma coherent_run_op c o : coherent c → coherent (run_op c o).
Proof.
  intros Hc. destruct o as [e|e| |id|id| |p|p]; simpl.
  - by apply coherent_create.
  - by apply coherent_setEntity.
  - by apply coherent_hide_fold.
  - by apply coherent_markEntityAsSelected.
  - by apply coherent_onEntityHovered.
  - by apply coherent_onEntityStopHovered.
  - unfold onPointerDown. destruct (hit p); [|done].
    by destruct (pickedMesh p ≫= _).
  - unfold onPointerMove. destruct (hit p); simpl.
    + destruct (pickedMesh p ≫= _) as [m|]; [|done]. simpl.
      destruct (JS.parseInt (mesh_id m)); [|done].
      by apply coherent_onEntityHovered.
    + by apply coherent_onEntityStopHovered.
Qed.

(** *** Materials *)

Lemma material_at_set_material h mat c i :
  material_at (update_mesh h (set_material mat) c) i
  = if decide (h = i) then (fun _ => mat) <$> material_at c i
    else material_at c i.
Proof.
  unfold material_at. rewrite lookup_update_mesh.
  case_decide; [|done]. by destruct (scene_meshes c !! i).
Qed.

Lemma material_at_update_keep f h c i :
  (∀ m, mesh_material (f m) = mesh_material m) →
  material_at (update_mesh h f c) i = material_at c i.
Proof.
  intros Hf. unfold material_at. rewrite lookup_update_mesh.
  case_decide; [|done]. destruct (scene_meshes c !! i); simpl; [|done].
  by rewrite Hf.
Qed.

Lemma entity_mesh_material c h : entity_mesh c h → is_Some (material_at c h).
Proof. intros (m & Hm & _). unfold material_at. rewrite Hm. by eexists. Qed.

Lemma material_at_refs c sel hov i :
  material_at (mkController (scene_meshes c) (entities c) sel hov) i
  = material_at c i.
Proof. reflexivity. Qed.

Lemma material_at_restore c i :
  material_at (restore_hovered c) i
  = if decide (hoveredEntity c = Some i) then
      (fun _ => if decide (hoveredEntity c = selectedEntity c)
                then selectedMaterial else entityMaterial) <$> material_at c i
    else material_at c i.
Proof.
  unfold restore_hovered. destruct (hoveredEntity c) as [p|] eqn:Hp.
  - destruct (decide (Some p = selectedEntity c));
      rewrite material_at_set_material;
      destruct (decide (p = i)), (decide (Some p = Some i)); simplify_eq; done.
  - by rewrite decide_False.
Qed.

Lemma entity_mesh_restore c i :
  entity_mesh (restore_hovered c) i ↔ entity_mesh c i.
Proof.
  unfold restore_hovered. destruct (hoveredEntity c); [|done].
  case_decide; apply entity_mesh_update, keeps_identity_material.
Qed.

Lemma material_at_mark id t c i :
  entities c !! id = Some t →
  material_at (markEntityAsSelected id c) i
  = if decide (t = i) then (fun _ => selectedMaterial) <$> material_at c i
    else if decide (selectedEntity c = Some i)
         then (fun _ => entityMaterial) <$> material_at c i
         else material_at c i.
Proof.
  intros Hid. unfold markEntityAsSelected. rewrite Hid. cbv zeta.
  rewrite material_at_refs.
  destruct (selectedEntity c) as [s|] eqn:Hs.
  - rewrite !material_at_set_material.
    destruct (decide (t = i)), (decide (s = i)), (decide (Some s = Some i));
      simplify_eq; try done. by destruct (material_at c i).
  - rewrite material_at_set_material.
    destruct (decide (t = i)); [done|]. by rewrite decide_False.
Qed.

Lemma entity_mesh_refs c sel hov i :
  entity_mesh (mkController (scene_meshes c) (entities c) sel hov) i
  ↔ entity_mesh c i.
Proof. reflexivity. Qed.

Lemma entity_mesh_mark id c i :
  entity_mesh (markEntityAsSelected id c) i ↔ entity_mesh c i.
Proof.
  unfold markEntityAsSelected. destruct (entities c !! id) as [t|]; [|done].
  cbv zeta. rewrite entity_mesh_refs.
  rewrite entity_mesh_update by apply keeps_identity_material.
  destruct (selectedEntity c) as [s|]; [|done].
  apply entity_mesh_update, keeps_identity_material.
Qed.

Lemma material_at_hover id t c i :
  entities c !! id = Some t →
  material_at (onEntityHovered id c) i
  = if decide (t = i) then (fun _ => hoveredMaterial) <$> material_at c i
    else material_at (restore_hovered c) i.
Proof.
  intros Hid. unfold onEntityHovered. rewrite Hid. cbv zeta.
  rewrite material_at_refs.
  rewrite material_at_set_material. case_decide; [|done].
  rewrite material_at_restore. case_decide; [|done].
  by destruct (material_at c i).
Qed.

Lemma entity_mesh_hover id c i :
  entity_mesh (onEntityHovered id c) i ↔ entity_mesh c i.
Proof.
  unfold onEntityHovered. destruct (entities c !! id) as [t|]; [|done].
  cbv zeta. rewrite entity_mesh_refs.
  rewrite entity_mesh_update by apply keeps_identity_material.
  apply entity_mesh_restore.
Qed.

Lemma material_state_initial : material_state initial.
Proof.
  split.
  - intros [|h] (m & Hm & Hp); simplify_eq/=.
  - intros [|h] Hm; simplify_eq/=.
  - intros [|h] Hm; simplify_eq/=.
  - intros h Hm; simplify_eq/=.
Qed.

Lemma material_state_ext c c' :
  (∀ h, entity_mesh c' h ↔ entity_mesh c h) →
  (∀ h, material_at c' h = material_at c h) →
  selectedEntity c' = selectedEntity c →
  hoveredEntity c' = hoveredEntity c →
  material_state c → material_state c'.
Proof.
  intros Hem Hmat Hsel Hhov [H3 Hs Hh Hos]. split.
  - intros h ?%Hem. rewrite Hmat. auto.
  - intros h. rewrite Hmat, Hsel. auto.
  - intros h. rewrite Hmat, Hhov. auto.
  - intros h. rewrite !Hmat, Hsel, Hhov. auto.
Qed.

Lemma material_at_create e c i :
  material_at (createEntity e c).2 i
  = if decide (i = length (scene_meshes c)) then Some entityMaterial
    else material_at c i.
Proof.
  unfold material_at. simpl. case_decide as Hi.
  - subst. by rewrite lookup_app_r, Nat.sub_diag.
  - destruct (decide (i < length (scene_meshes c))%nat).
    + by rewrite lookup_app_l.
    + rewrite !lookup_ge_None_2; [done | lia |].
      rewrite length_app. simpl. lia.
Qed.

Lemma material_at_lt c h mat :
  material_at c h = Some mat → (h < length (scene_meshes c))%nat.
Proof.
  unfold material_at. destruct (scene_meshes c !! h) eqn:Hm; [|done].
  intros _. by eapply lookup_lt_Some.
Qed.

Lemma entity_mesh_create_inv e c h :
  entity_mesh (createEntity e c).2 h →
  entity_mesh c h ∨ h = length (scene_meshes c).
Proof.
  intros (m & Hm & Hp). simpl in Hm.
  destruct (decide (h < length (scene_meshes c))%nat).
  - left. exists m. by rewrite lookup_app_l in Hm.
  - right. apply lookup_lt_Some in Hm. rewrite length_app in Hm.
    simpl in Hm. lia.
Qed.

Lemma material_state_create e c :
  material_state c → material_state (createEntity e c).2.
Proof.
  intros [H3 Hs Hh Hos]. split.
  - intros h Hem. rewrite material_at_create. case_decide; [by left|].
    apply entity_mesh_create_inv in Hem as [Hem | ?]; [auto | done].
  - intros h. rewrite material_at_create. case_decide; [done|]. apply Hs.
  - intros h. rewrite material_at_create. case_decide; [done|]. apply Hh.
  - intros h Hsel. simpl in Hsel. rewrite material_at_create.
    destruct (Hos h Hsel) as [Hm | [Hhov Hm]];
      pose proof (material_at_lt _ _ _ Hm); rewrite decide_False by lia; auto.
Qed.

Lemma material_state_update f h c :
  keeps_identity f → (∀ m, mesh_material (f m) = mesh_material m) →
  material_state c → material_state (update_mesh h f c).
Proof.
  intros Hid Hmat. apply material_state_ext; try done.
  - intros i. by apply entity_mesh_update.
  - intros i. by apply material_at_update_keep.
Qed.

Lemma material_state_setEntity e c :
  material_state c → material_state (setEntity e c).
Proof.
  intros Hc. destruct (entities c !! entity_id e) as [h|] eqn:Hget.
  - rewrite (setEntity_known e c h Hget).
    apply material_state_update; auto using keeps_identity_place.
  - rewrite (setEntity_new e c Hget).
    apply material_state_update;
      auto using keeps_identity_place, material_state_create.
Qed.

Lemma material_state_hide_fold hs c :
  material_state c → material_state (hide_fold hs c).
Proof.
  revert c. induction hs as [|a hs IH]; intros c Hc; [done|].
  simpl. apply IH, material_state_update; auto using keeps_identity_enabled.
Qed.

Lemma material_state_mark id c :
  coherent c → material_state c → material_state (markEntityAsSelected id c).
Proof.
  intros Hc Hm. destruct (entities c !! id) as [t|] eqn:Hid.
  2: { unfold markEntityAsSelected. by rewrite Hid. }
  pose proof (entity_mesh_material c t (coherent_tracked c id t Hc Hid))
    as [mt Hmt].
  assert (selectedEntity (markEntityAsSelected id c) = Some t
          ∧ hoveredEntity (markEntityAsSelected id c) = hoveredEntity c)
    as [Hsel' Hhov'].
  { unfold markEntityAsSelected. rewrite Hid. simpl.
    by destruct (selectedEntity c). }
  destruct Hm as [H3 Hs Hh Hos]. split.
  - intros h Hem%entity_mesh_mark. rewrite (material_at_mark id t) by done.
    destruct (entity_mesh_material c h Hem) as [mh Hmh]. rewrite Hmh.
    repeat case_decide; simpl; auto. rewrite <- Hmh. auto.
  - intros h. rewrite (material_at_mark id t), Hsel' by done.
    repeat case_decide; simplify_eq; try done.
    + by destruct (material_at c h).
    + intros Hmat. apply Hs in Hmat. congruence.
  - intros h. rewrite (material_at_mark id t), Hhov' by done.
    repeat case_decide; simplify_eq; try (by destruct (material_at c h)).
    apply Hh.
  - intros h. rewrite Hsel'. intros [= <-].
    rewrite (material_at_mark id t) by done.
    rewrite decide_True by done. rewrite Hmt. by left.
Qed.

Lemma material_state_hover id c :
  coherent c → material_state c → material_state (onEntityHovered id c).
Proof.
  intros Hc Hm. destruct (entities c !! id) as [t|] eqn:Hid.
  2: { unfold onEntityHovered. by rewrite Hid. }
  pose proof (entity_mesh_material c t (coherent_tracked c id t Hc Hid))
    as [mt Hmt].
  assert (selectedEntity (onEntityHovered id c) = selectedEntity c
          ∧ hoveredEntity (onEntityHovered id c) = Some t)
    as [Hsel' Hhov'].
  { unfold onEntityHovered. rewrite Hid. simpl.
    by destruct (restore_hovered_fields c) as (_ & -> & _). }
  destruct Hm as [H3 Hs Hh Hos]. split.
  - intros h Hem%entity_mesh_hover.
    rewrite (material_at_hover id t), material_at_restore by done.
    destruct (entity_mesh_material c h Hem) as [mh Hmh]. rewrite Hmh.
    repeat case_decide; simpl; auto. rewrite <- Hmh. auto.
  - intros h.
    rewrite (material_at_hover id t), material_at_restore, Hsel' by done.
    repeat case_decide; simplify_eq; try (by destruct (material_at c h)).
    + intros _. congruence.
    + apply Hs.
  - intros h.
    rewrite (material_at_hover id t), material_at_restore, Hhov' by done.
    repeat case_decide; simplify_eq; try (by destruct (material_at c h)).
    intros Hmat. apply Hh in Hmat. congruence.
  - intros h. rewrite Hsel', Hhov'. intros Hsel.
    rewrite (material_at_hover id t), material_at_restore by done.
    destruct (decide (t = h)) as [-> | Hne].
    + right. by rewrite Hmt.
    + left. destruct (entity_mesh_material c h (coh_selected c Hc h Hsel))
        as [mh Hmh].
      case_decide as Hhov.
      * rewrite Hmh. simpl. rewrite decide_True by congruence. done.
      * destruct (Hos h Hsel) as [? | [? _]]; [done | congruence].
Qed.

Lemma material_state_stop c :
  coherent c → material_state c → material_state (onEntityStopHovered c).
Proof.
  intros Hc [H3 Hs Hh Hos].
  assert (selectedEntity (onEntityStopHovered c) = selectedEntity c
          ∧ hoveredEntity (onEntityStopHovered c) = None)
    as [Hsel' Hhov'].
  { unfold onEntityStopHovered. simpl.
    by destruct (restore_hovered_fields c) as (_ & -> & _). }
  assert (∀ h, material_at (onEntityStopHovered c) h
               = material_at (restore_hovered c) h) as Hmat by done.
  split.
  - intros h Hem. apply (entity_mesh_restore c h) in Hem.
    rewrite Hmat, material_at_restore.
    destruct (entity_mesh_material c h Hem) as [mh Hmh]. rewrite Hmh.
    repeat case_decide; simpl; auto. rewrite <- Hmh. auto.
  - intros h. rewrite Hmat, material_at_restore, Hsel'.
    repeat case_decide; simplify_eq; try (by destruct (material_at c h)).
    + intros _. congruence.
    + apply Hs.
  - intros h. rewrite Hmat, material_at_restore, Hhov'.
    repeat case_decide; simplify_eq; try (by destruct (material_at c h)).
    intros Hm. apply Hh in Hm. congruence.
  - intros h. rewrite Hsel'. intros Hsel. left.
    rewrite Hmat, material_at_restore.
    destruct (entity_mesh_material c h (coh_selected c Hc h Hsel))
      as [mh Hmh].
    case_decide as Hhov.
    + rewrite Hmh. simpl. rewrite decide_True by congruence. done.
    + destruct (Hos h Hsel) as [? | [? _]]; [done | congruence].
Qed.

Lemma invariant_run_op c o : invariant c → invariant (run_op c o).
Proof.
  intros [Hc Hm]. split; [by apply coherent_run_op|].
  destruct o as [e|e| |id|id| |p|p]; simpl.
  - by apply material_state_create.
  - by apply material_state_setEntity.
  - by apply material_state_hide_fold.
  - by apply material_state_mark.
  - by apply material_state_hover.
  - by apply material_state_stop.
  - unfold onPointerDown. destruct (hit p); [|done].
    by destruct (pickedMesh p ≫= _).
  - unfold onPointerMove. destruct (hit p); simpl.
    + destruct (pickedMesh p ≫= _) as [m|]; [|done]. simpl.
      destruct (JS.parseInt (mesh_id m)); [|done].
      by apply material_state_hover.
    + by apply material_state_stop.
Qed.

Lemma invariant_run ops c : invariant c → invariant (run ops c).
Proof.
  revert c. induction ops as [|o ops IH]; intros c Hc; [done|].
  simpl. by apply IH, invariant_run_op.
Qed.

Lemma reachable_invariant c : reachable c → invariant c.
Proof.
  intros [ops ->]. apply invariant_run.
  split; [apply coherent_initial | apply material_state_initial].
Qed.

Lemma reachable_run_op c o : reachable c → reachable (run_op c o).
Proof.
  intros [ops ->]. exists (ops ++ [o]).
  unfold Scene.run. by rewrite foldl_app.
Qed.

Lemma reachable_run ops c : reachable c → reachable (run ops c).
Proof.
  intros [ops0 ->]. exists (ops0 ++ ops).
  unfold Scene.run. by rewrite foldl_app.
Qed.

(** *** Selection and hovering *)

Lemma markEntityAsSelected_fields id t c :
  entities c !! id = Some t →
  entities (markEntityAsSelected id c) = entities c
  ∧ selectedEntity (markEntityAsSelected id c) = Some t
  ∧ hoveredEntity (markEntityAsSelected id c) = hoveredEntity c.
Proof.
  intros Hid. unfold markEntityAsSelected. rewrite Hid. simpl.
  by destruct (selectedEntity c).
Qed.

Lemma onEntityHovered_fields id t c :
  entities c !! id = Some t →
  entities (onEntityHovered id c) = entities c
  ∧ selectedEntity (onEntityHovered id c) = selectedEntity c
  ∧ hoveredEntity (onEntityHovered id c) = Some t.
Proof.
  intros Hid. unfold onEntityHovered. rewrite Hid. simpl.
  by destruct (restore_hovered_fields c) as (-> & -> & _).
Qed.

Lemma tracked_material c id h :
  invariant c → entities c !! id = Some h → is_Some (material_at c h).
Proof.
  intros [Hc _] Hid. eapply entity_mesh_material, coherent_tracked; eauto.
Qed.

(** C1, as the code has it: in every reachable state a mesh of the
    entity map displays one of the three entity materials; the selected
    material is displayed by the selected mesh only and the hover material
    by the hovered mesh only, so a mesh that is neither displays the
    default material; the selected mesh displays the selected material
    unless it is also the hovered mesh, and then it displays the material
    of the later of the two events: the hover material after
    [onEntityHovered], the selected material after [markEntityAsSelected].
    All of it holds again after [markEntityAsSelected]. *)
Theorem material_of_tracked_mesh c id h :
  reachable c → entities c !! id = Some h →
  (material_at c h = Some entityMaterial
   ∨ material_at c h = Some selectedMaterial
   ∨ material_at c h = Some hoveredMaterial)
  ∧ (material_at c h = Some selectedMaterial → selectedEntity c = Some h)
  ∧ (material_at c h = Some hoveredMaterial → hoveredEntity c = Some h)
  ∧ (selectedEntity c ≠ Some h → hoveredEntity c ≠ Some h →
       material_at c h = Some entityMaterial)
  ∧ (selectedEntity c = Some h → hoveredEntity c ≠ Some h →
       material_at c h = Some selectedMaterial)
  ∧ (selectedEntity c = Some h → hoveredEntity c = Some h →
       material_at c h = Some selectedMaterial
       ∨ material_at c h = Some hoveredMaterial)
  ∧ (let c' := onEntityHovered id c in
     hoveredEntity c' = Some h ∧ selectedEntity c' = selectedEntity c
     ∧ material_at c' h = Some hoveredMaterial)
  ∧ (let c' := markEntityAsSelected id c in
     selectedEntity c' = Some h ∧ hoveredEntity c' = hoveredEntity c
     ∧ material_at c' h = Some selectedMaterial
     ∧ reachable c').
Proof.
  intros Hreach Hid. pose proof (reachable_invariant c Hreach) as Hinv.
  pose proof Hinv as [Hc [H3 Hs Hh Hos]].
  pose proof (coherent_tracked c id h Hc Hid) as Hem.
  destruct (tracked_material c id h Hinv Hid) as [mat Hmat].
  repeat split.
  - auto.
  - apply Hs.
  - apply Hh.
  - intros Hns Hnh. destruct (H3 h Hem) as [?|[Hm|Hm]]; [done| |].
    + by apply Hs in Hm.
    + by apply Hh in Hm.
  - intros Hsel Hnh. destruct (Hos h Hsel) as [? | [? _]]; done.
  - intros Hsel _. destruct (Hos h Hsel) as [? | [_ ?]]; auto.
  - by destruct (onEntityHovered_fields id h c Hid) as (_ & _ & ->).
  - by destruct (onEntityHovered_fields id h c Hid) as (_ & -> & _).
  - rewrite (material_at_hover id h c h Hid), decide_True by done.
    by rewrite Hmat.
  - by destruct (markEntityAsSelected_fields id h c Hid) as (_ & -> & _).
  - by destruct (markEntityAsSelected_fields id h c Hid) as (_ & _ & ->).
  - rewrite (material_at_mark id h c h Hid), decide_True by done.
    by rewrite Hmat.
  - apply (reachable_run_op c (MarkEntityAsSelected id) Hreach).
Qed.

(** C3: in a reachable state where one mesh is both the selected and the
    hovered mesh, [onEntityStopHovered] leaves that mesh with the selected
    material and clears the hover back-reference. *)
Theorem stop_hover_keeps_selected c h :
  reachable c → selectedEntity c = Some h → hoveredEntity c = Some h →
  material_at (onEntityStopHovered c) h = Some selectedMaterial
  ∧ hoveredEntity (onEntityStopHovered c) = None.
Proof.
  intros Hreach Hsel Hhov. split; [|done].
  destruct (reachable_invariant c Hreach) as [Hc _].
  destruct (entity_mesh_material c h (coh_selected c Hc h Hsel)) as [mat Hmat].
  change (material_at (restore_hovered c) h = Some selectedMaterial).
  rewrite material_at_restore, decide_True by done.
  rewrite Hmat. simpl. rewrite decide_True by congruence. done.
Qed.

(** C4: in every reachable state at most one mesh of the scene shows the
    hover material; and when A and B are distinct ids of the entity map,
    after [onEntityHovered(A)] then [onEntityHovered(B)] the mesh of A
    shows the selected material if it is the selected mesh and the default
    material otherwise (which is the material it had before, unless it was
    the hovered mesh already), and the mesh of B shows the hover
    material. *)
Theorem hover_handoff c :
  reachable c →
  (∀ h1 h2, material_at c h1 = Some hoveredMaterial →
            material_at c h2 = Some hoveredMaterial → h1 = h2)
  ∧ ∀ A B a b, A ≠ B →
      entities c !! A = Some a → entities c !! B = Some b →
      let c' := onEntityHovered B (onEntityHovered A c) in
      a ≠ b
      ∧ material_at c' a
        = Some (if decide (selectedEntity c = Some a) then selectedMaterial
                else entityMaterial)
      ∧ (hoveredEntity c ≠ Some a → material_at c' a = material_at c a)
      ∧ material_at c' b = Some hoveredMaterial
      ∧ hoveredEntity c' = Some b.
Proof.
  intros Hreach. pose proof (reachable_invariant c Hreach) as Hinv.
  pose proof Hinv as [Hc [H3 Hs Hh Hos]]. split.
  { intros h1 h2 H1%Hh H2%Hh. congruence. }
  intros A B a b HAB HA HB c'.
  assert (a ≠ b) as Hab.
  { intros ->. apply HAB. eapply (coh_injective c Hc); eauto. }
  destruct (onEntityHovered_fields A a c HA) as (He1 & Hs1 & Hh1).
  assert (entities (onEntityHovered A c) !! B = Some b) as HB1
    by (by rewrite He1).
  destruct (onEntityHovered_fields B b _ HB1) as (He2 & Hs2 & Hh2).
  destruct (tracked_material c A a Hinv HA) as [ma Hma].
  destruct (tracked_material c B b Hinv HB) as [mb Hmb].
  assert (material_at (onEntityHovered A c) a = Some hoveredMaterial) as Hma1.
  { rewrite (material_at_hover A a c a HA), decide_True by done.
    by rewrite Hma. }
  assert (material_at c' a
          = Some (if decide (selectedEntity c = Some a) then selectedMaterial
                  else entityMaterial)) as Hres.
  { unfold c'. rewrite (material_at_hover B b _ a HB1).
    rewrite decide_False by done.
    rewrite material_at_restore, Hh1, decide_True by done.
    rewrite Hma1, Hs1. simpl. f_equal.
    destruct (decide (Some a = selectedEntity c)),
      (decide (selectedEntity c = Some a)); congruence. }
  split; [done|]. split; [done|]. split; [|split].
  - intros Hnh. rewrite Hres. case_decide as Hsel.
    + destruct (Hos a Hsel) as [? | [? _]]; done.
    + destruct (H3 a (coherent_tracked c A a Hc HA)) as [?|[Hm|Hm]]; [done| |].
      * by apply Hs in Hm.
      * by apply Hh in Hm.
  - unfold c'. rewrite (material_at_hover B b _ b HB1), decide_True by done.
    rewrite (material_at_hover A a c b HA), decide_False by done.
    rewrite material_at_restore, Hmb.
    by destruct (decide (hoveredEntity c = Some b)).
  - done.
Qed.

(** *** Visibility *)

Lemma enabled_at_place e h c i :
  enabled_at (update_mesh h (place e) c) i
  = if decide (h = i) then (fun _ => true) <$> enabled_at c i
    else enabled_at c i.
Proof.
  unfold enabled_at. rewrite lookup_update_mesh.
  case_decide; [|done]. by destruct (scene_meshes c !! i).
Qed.

Lemma enabled_at_update_keep f h c i :
  (∀ m, mesh_enabled (f m) = mesh_enabled m) →
  enabled_at (update_mesh h f c) i = enabled_at c i.
Proof.
  intros Hf. unfold enabled_at. rewrite lookup_update_mesh.
  case_decide; [|done]. destruct (scene_meshes c !! i); simpl; [|done].
  by rewrite Hf.
Qed.

Lemma enabled_at_hide c i :
  enabled_at (hideAllEntities c) i
  = if decide (i ∈ entity_values c) then (fun _ => false) <$> enabled_at c i
    else enabled_at c i.
Proof.
  unfold enabled_at. rewrite hideAllEntities_lookup.
  case_decide; [|done]. by destruct (scene_meshes c !! i).
Qed.

Lemma enabled_at_create e c i :
  enabled_at (createEntity e c).2 i
  = if decide (i = length (scene_meshes c)) then Some true
    else enabled_at c i.
Proof.
  unfold enabled_at. simpl. case_decide as Hi.
  - subst. by rewrite lookup_app_r, Nat.sub_diag.
  - destruct (decide (i < length (scene_meshes c))%nat).
    + by rewrite lookup_app_l.
    + rewrite !lookup_ge_None_2; [done | lia |].
      rewrite length_app. simpl. lia.
Qed.

Lemma tracked_enabled c id h :
  coherent c → entities c !! id = Some h → is_Some (enabled_at c h).
Proof.
  intros Hc Hid. destruct (coherent_tracked c id h Hc Hid) as (m & Hm & _).
  unfold enabled_at. rewrite Hm. by eexists.
Qed.

Lemma enabled_at_setEntity e c id h :
  coherent c → entities c !! id = Some h →
  enabled_at (setEntity e c) h
  = if decide (id = entity_id e) then Some true else enabled_at c h.
Proof.
  intros Hc Hid. destruct (tracked_enabled c id h Hc Hid) as [b Hb].
  destruct (entities c !! entity_id e) as [t|] eqn:Hget.
  - rewrite (setEntity_known e c t Hget), enabled_at_place, Hb.
    destruct (decide (t = h)) as [-> | Hne], (decide (id = entity_id e))
      as [-> | Hne']; try done.
    + destruct Hne'. eapply (coh_injective c Hc); eauto.
    + congruence.
  - rewrite (setEntity_new e c Hget), enabled_at_place, enabled_at_create.
    pose proof (entity_mesh_lt c h (coherent_tracked c id h Hc Hid)).
    rewrite !decide_False by lia. rewrite decide_False by congruence. done.
Qed.

Lemma setEntities_enabled es c :
  coherent c →
  (∀ e, e ∈ es → is_Some (entities c !! entity_id e)) →
  let c' := foldl (fun c e => setEntity e c) c es in
  entities c' = entities c
  ∧ ∀ id h, entities c !! id = Some h →
      enabled_at c' h
      = if decide (id ∈ entity_id <$> es) then Some true else enabled_at c h.
Proof.
  revert c. induction es as [|e es IH]; intros c Hc Hes; simpl.
  - done.
  - destruct (setEntity_frame e c) as (_ & _ & _ & Hsame & _).
    specialize (Hsame (Hes e (list_elem_of_here _ _))).
    destruct (IH (setEntity e c)) as [He Hen].
    + by apply coherent_setEntity.
    + intros e' He'. rewrite Hsame. apply Hes. by apply list_elem_of_further.
    + split; [congruence|]. intros id h Hid.
      rewrite (Hen id h) by (by rewrite Hsame).
      rewrite (enabled_at_setEntity e c id h Hc Hid).
      destruct (decide (id = entity_id e)) as [-> | Hne].
      * rewrite (decide_True (P := _ ∈ _ :: _)) by apply list_elem_of_here.
        by case_decide.
      * destruct (decide (id ∈ entity_id <$> es)).
        -- by rewrite decide_True by (by apply list_elem_of_further).
        -- rewrite decide_False; [done|]. rewrite elem_of_cons. intuition.
Qed.

(** C6: in a reachable state (in particular after any sequence of
    [setEntity] calls), [hideAllEntities] disables every mesh of the entity
    map; when [setEntity] is then called for entities whose ids are in the
    map, the map is the same and a mesh of the map is enabled exactly when
    its id is among those of the entities set. *)
Theorem hide_then_show c es :
  reachable c →
  (∀ e, e ∈ es → is_Some (entities c !! entity_id e)) →
  (∀ id h, entities c !! id = Some h →
     enabled_at (hideAllEntities c) h = Some false)
  ∧ entities (update_pass es c) = entities c
  ∧ ∀ id h, entities c !! id = Some h →
      enabled_at (update_pass es c) h
      = Some (bool_decide (id ∈ entity_id <$> es)).
Proof.
  intros Hreach Hes. destruct (reachable_invariant c Hreach) as [Hc _].
  destruct (hideAllEntities_fields c) as (Hent & _ & _).
  assert (∀ id h, entities c !! id = Some h →
            enabled_at (hideAllEntities c) h = Some false) as Hhidden.
  { intros id h Hid. rewrite enabled_at_hide.
    rewrite decide_True by (apply elem_of_entity_values; eauto).
    destruct (tracked_enabled c id h Hc Hid) as [b ->]. done. }
  split; [done|].
  destruct (setEntities_enabled es (hideAllEntities c)) as [He Hen].
  - by apply coherent_hide_fold.
  - intros e He. rewrite Hent. by apply Hes.
  - unfold update_pass. split; [congruence|]. intros id h Hid.
    rewrite (Hen id h) by (by rewrite Hent).
    rewrite (Hhidden id h Hid). by case_decide; [rewrite bool_decide_eq_true_2
      | rewrite bool_decide_eq_false_2].
Qed.

(** *** One mesh per id *)

Lemma enabled_at_refs c sel hov i :
  enabled_at (mkController (scene_meshes c) (entities c) sel hov) i
  = enabled_at c i.
Proof. reflexivity. Qed.

Lemma enabled_at_restore c i :
  enabled_at (restore_hovered c) i = enabled_at c i.
Proof.
  unfold restore_hovered. destruct (hoveredEntity c); [|done].
  by case_decide; apply enabled_at_update_keep.
Qed.

Lemma enabled_at_mark id c i :
  enabled_at (markEntityAsSelected id c) i = enabled_at c i.
Proof.
  unfold markEntityAsSelected. destruct (entities c !! id); [|done].
  cbv zeta. rewrite enabled_at_refs, enabled_at_update_keep by done.
  destruct (selectedEntity c); [|done]. by apply enabled_at_update_keep.
Qed.

Lemma enabled_at_hover id c i :
  enabled_at (onEntityHovered id c) i = enabled_at c i.
Proof.
  unfold onEntityHovered. destruct (entities c !! id); [|done].
  cbv zeta. rewrite enabled_at_refs, enabled_at_update_keep by done.
  apply enabled_at_restore.
Qed.

Lemma entities_mark id c :
  entities (markEntityAsSelected id c) = entities c.
Proof.
  destruct (entities c !! id) as [t|] eqn:Hid.
  - by destruct (markEntityAsSelected_fields id t c Hid) as (-> & _).
  - unfold markEntityAsSelected. by rewrite Hid.
Qed.

Lemma entities_hover id c :
  entities (onEntityHovered id c) = entities c.
Proof.
  destruct (entities c !! id) as [t|] eqn:Hid.
  - by destruct (onEntityHovered_fields id t c Hid) as (-> & _).
  - unfold onEntityHovered. by rewrite Hid.
Qed.

Lemma entities_stop c : entities (onEntityStopHovered c) = entities c.
Proof. by destruct (restore_hovered_fields c) as (Heq & _). Qed.

Lemma other_op_frame c o :
  visibility_op o = false →
  entities (run_op c o) = entities c
  ∧ (∀ i, enabled_at (run_op c o) i = enabled_at c i)
  ∧ (∀ i, entity_mesh (run_op c o) i ↔ entity_mesh c i).
Proof.
  destruct o as [e|e| |id|id| |p|p]; try done; intros _; simpl.
  - split; [apply entities_mark|].
    split; intros i; [apply enabled_at_mark | apply entity_mesh_mark].
  - split; [apply entities_hover|].
    split; intros i; [apply enabled_at_hover | apply entity_mesh_hover].
  - split; [apply entities_stop|].
    split; intros i; [apply enabled_at_restore | apply entity_mesh_restore].
  - unfold onPointerDown. destruct (hit p); [|done].
    by destruct (pickedMesh p ≫= _).
  - unfold onPointerMove. destruct (hit p); simpl.
    + destruct (pickedMesh p ≫= _) as [m|]; [|done]. simpl.
      destruct (JS.parseInt (mesh_id m)); [|done].
      split; [apply entities_hover|].
      split; intros i; [apply enabled_at_hover | apply entity_mesh_hover].
    + split; [apply entities_stop|].
      split; intros i; [apply enabled_at_restore | apply entity_mesh_restore].
Qed.

Lemma entities_create e c :
  entities (createEntity e c).2
  = <[entity_id e := length (scene_meshes c)]> (entities c).
Proof. reflexivity. Qed.

Lemma all_tracked_create e c :
  entities c !! entity_id e = None →
  all_tracked c → all_tracked (createEntity e c).2.
Proof.
  intros Hnew Hall h [Hem | ->]%entity_mesh_create_inv; simpl.
  - destruct (Hall h Hem) as [id Hid]. exists id. simpl.
    rewrite lookup_insert_ne; [done | congruence].
  - exists (entity_id e). simpl. apply lookup_insert_eq.
Qed.

Lemma all_tracked_update f h c :
  keeps_identity f → all_tracked c → all_tracked (update_mesh h f c).
Proof.
  intros Hf Hall i Hem. apply entity_mesh_update in Hem; [|done].
  apply (Hall i Hem).
Qed.

Lemma all_tracked_setEntity e c :
  all_tracked c → all_tracked (setEntity e c).
Proof.
  intros Hall. destruct (entities c !! entity_id e) as [h|] eqn:Hget.
  - rewrite (setEntity_known e c h Hget).
    apply all_tracked_update; auto using keeps_identity_place.
  - rewrite (setEntity_new e c Hget).
    apply all_tracked_update;
      auto using keeps_identity_place, all_tracked_create.
Qed.

Lemma all_tracked_hide_fold hs c :
  all_tracked c → all_tracked (hide_fold hs c).
Proof.
  revert c. induction hs as [|a hs IH]; intros c Hc; [done|].
  simpl. apply IH, all_tracked_update; auto using keeps_identity_enabled.
Qed.

Lemma all_tracked_run_op c o :
  guard c o = true → all_tracked c → all_tracked (run_op c o).
Proof.
  intros Hg Hall. destruct (visibility_op o) eqn:Hv.
  - destruct o as [e|e| | | | | |]; try done; simpl.
    + apply all_tracked_create; [|done]. by apply bool_decide_eq_true in Hg.
    + by apply all_tracked_setEntity.
    + by apply all_tracked_hide_fold.
  - destruct (other_op_frame c o Hv) as (He & _ & Hem).
    intros h Hh%Hem. rewrite He. by apply Hall.
Qed.

Lemma enabled_reflects_run_op acc c o :
  coherent c → enabled_reflects acc c →
  enabled_reflects (pass_step acc o) (run_op c o).
Proof.
  intros Hc Hen. destruct (visibility_op o) eqn:Hv.
  - destruct o as [e|e| | | | | |]; try done; intros id h.
    + change (entities (createEntity e c).2 !! id = Some h →
              enabled_at (createEntity e c).2 h
              = Some (bool_decide (id ∈ entity_id e :: acc))).
      rewrite entities_create, lookup_insert, enabled_at_create.
      case_decide as Hid.
      * intros [= <-]. subst. rewrite decide_True by done.
        by rewrite bool_decide_eq_true_2 by apply list_elem_of_here.
      * intros Hget.
        pose proof (entity_mesh_lt c h (coherent_tracked c id h Hc Hget)).
        rewrite decide_False by lia. rewrite (Hen id h Hget). f_equal.
        apply bool_decide_ext. rewrite elem_of_cons. intuition congruence.
    + change (entities (setEntity e c) !! id = Some h →
              enabled_at (setEntity e c) h
              = Some (bool_decide (id ∈ entity_id e :: acc))).
      intros Hget.
      destruct (entities c !! entity_id e) as [t|] eqn:Ht.
      * destruct (setEntity_frame e c) as (_ & _ & _ & Hsame & _).
        rewrite Hsame in Hget by (rewrite Ht; by eexists).
        rewrite (enabled_at_setEntity e c id h Hc Hget).
        case_decide as Hid.
        -- subst.
           by rewrite bool_decide_eq_true_2 by apply list_elem_of_here.
        -- rewrite (Hen id h Hget). f_equal.
           apply bool_decide_ext. rewrite elem_of_cons. intuition congruence.
      * rewrite (setEntity_new e c Ht) in Hget |- *.
        change (<[entity_id e := length (scene_meshes c)]> (entities c) !! id
                = Some h) in Hget.
        rewrite enabled_at_place, enabled_at_create.
        rewrite lookup_insert in Hget. case_decide as Hid.
        -- injection Hget as <-. subst. rewrite !decide_True by done.
           by rewrite bool_decide_eq_true_2 by apply list_elem_of_here.
        -- pose proof (entity_mesh_lt c h (coherent_tracked c id h Hc Hget)).
           rewrite !decide_False by lia. rewrite (Hen id h Hget). f_equal.
           apply bool_decide_ext. rewrite elem_of_cons. intuition congruence.
    + change (entities (hideAllEntities c) !! id = Some h →
              enabled_at (hideAllEntities c) h
              = Some (bool_decide (id ∈ @nil Z))).
      destruct (hideAllEntities_fields c) as (-> & _). intros Hget.
      rewrite enabled_at_hide.
      rewrite decide_True by (apply elem_of_entity_values; eauto).
      by destruct (tracked_enabled c id h Hc Hget) as [b ->].
  - destruct (other_op_frame c o Hv) as (He & Heq & _).
    intros id h. rewrite He, Heq. intros Hget. rewrite (Hen id h Hget).
    by destruct o.
Qed.

Lemma guarded_run ops c acc :
  guarded ops c = true →
  coherent c → all_tracked c → enabled_reflects acc c →
  coherent (run ops c) ∧ all_tracked (run ops c)
  ∧ enabled_reflects (foldl pass_step acc ops) (run ops c).
Proof.
  revert c acc. induction ops as [|o ops IH]; intros c acc Hg Hc Hall Hen.
  - done.
  - simpl in Hg. apply andb_true_iff in Hg as [Hgo Hg]. simpl.
    apply IH; [done | | |].
    + by apply coherent_run_op.
    + by apply all_tracked_run_op.
    + by apply enabled_reflects_run_op.
Qed.

Lemma all_tracked_initial : all_tracked initial.
Proof. intros [|h] (m & Hm & Hp); simplify_eq/=. Qed.

Lemma enabled_reflects_initial : enabled_reflects [] initial.
Proof. intros id h Hget. simplify_eq/=. Qed.

Lemma enabled_reflects_run ops c acc :
  coherent c → enabled_reflects acc c →
  enabled_reflects (foldl pass_step acc ops) (run ops c).
Proof.
  revert c acc. induction ops as [|o ops IH]; intros c acc Hc Hen; [done|].
  simpl. apply IH; [by apply coherent_run_op|].
  by apply enabled_reflects_run_op.
Qed.

(** C7, as the code has it: after every sequence of operations, repeated
    [createEntity] calls included, the map sends distinct ids to distinct
    meshes, and the mesh the map holds for an id is an entity mesh of the
    scene that carries the stamp of the id and is enabled exactly when the
    id was set (or created) since the last [hideAllEntities].  When no
    [createEntity] is called for an id that has a mesh already (as in
    [setEntity], its one caller in the controller), every entity mesh of
    the scene is the mesh of exactly one id of the map and carries the
    stamp of that id. *)
Theorem one_mesh_per_id ops :
  let c := run ops initial in
  (∀ i j h, entities c !! i = Some h → entities c !! j = Some h → i = j)
  ∧ (∀ id h, entities c !! id = Some h →
       entity_mesh c h
       ∧ mesh_id <$> scene_meshes c !! h = Some (JS.number_to_string id)
       ∧ enabled_at c h = Some (bool_decide (id ∈ latest_pass ops)))
  ∧ (guarded ops initial = true →
     ∀ h, entity_mesh c h →
       ∃ id, entities c !! id = Some h
             ∧ (∀ id', entities c !! id' = Some h → id' = id)
             ∧ mesh_id <$> scene_meshes c !! h
               = Some (JS.number_to_string id)).
Proof.
  intros c. assert (reachable c) as Hreach by (by exists ops).
  destruct (reachable_invariant c Hreach) as [Hc _].
  assert (∀ id h, entities c !! id = Some h →
            mesh_id <$> scene_meshes c !! h = Some (JS.number_to_string id))
    as Hstamps.
  { intros id h Hid.
    destruct (coh_entities _ Hc id h Hid) as (m & Hm & _ & Hstamp).
    rewrite Hm. simpl. by rewrite Hstamp. }
  split; [apply (coh_injective c Hc)|]. split.
  - intros id h Hid. split; [by eapply coherent_tracked|].
    split; [by apply Hstamps|].
    by apply (enabled_reflects_run ops initial [] coherent_initial
                enabled_reflects_initial).
  - intros Hg.
    destruct (guarded_run ops initial [] Hg coherent_initial all_tracked_initial
                enabled_reflects_initial) as (_ & Hall & _).
    intros h Hem. destruct (Hall h Hem) as [id Hid]. exists id.
    split; [done|]. split; [|by apply Hstamps].
    intros id' Hid'. eapply (coh_injective _ Hc); eauto.
Qed.

(** *** Ids never passed in *)

Lemma entities_run_op_other c o id :
  id ∉ passed_ids [o] → entities (run_op c o) !! id = entities c !! id.
Proof.
  intros Hid. destruct (visibility_op o) eqn:Hv.
  - destruct o as [e|e| | | | | |]; try done.
    + apply not_elem_of_cons in Hid as [Hne _].
      change (<[entity_id e := length (scene_meshes c)]> (entities c) !! id
              = entities c !! id).
      by rewrite lookup_insert_ne.
    + apply not_elem_of_cons in Hid as [Hne _].
      destruct (setEntity_frame e c) as (_ & _ & Hother & _).
      by apply Hother.
    + change (entities (hideAllEntities c) !! id = entities c !! id).
      by destruct (hideAllEntities_fields c) as (-> & _).
  - by destruct (other_op_frame c o Hv) as (-> & _).
Qed.

(** An id that no [createEntity] or [setEntity] call has received has no
    mesh in the map. *)
Lemma never_passed_untracked ops id :
  id ∉ passed_ids ops → entities (run ops initial) !! id = None.
Proof.
  assert (∀ c, id ∉ passed_ids ops →
            entities (run ops c) !! id = entities c !! id) as Hgen.
  { induction ops as [|o ops IH]; intros c Hid; [done|].
    simpl. rewrite IH.
    - apply entities_run_op_other. intros Hin. apply Hid.
      change (o :: ops) with ([o] ++ ops).
      unfold Scene.passed_ids. rewrite omap_app. apply elem_of_app. by left.
    - intros Hin. apply Hid.
      change (o :: ops) with ([o] ++ ops).
      unfold Scene.passed_ids. rewrite omap_app. apply elem_of_app. by right. }
  intros Hid. by rewrite Hgen.
Qed.

(** *** Pointer-down *)

Lemma meshes_kept_refl c : meshes_kept c c.
Proof. intros h m Hm. by exists m. Qed.

Lemma meshes_kept_trans c1 c2 c3 :
  meshes_kept c1 c2 → meshes_kept c2 c3 → meshes_kept c1 c3.
Proof.
  intros H12 H23 h m Hm.
  destruct (H12 h m Hm) as (m2 & Hm2 & Hid2 & Hp2).
  destruct (H23 h m2 Hm2) as (m3 & Hm3 & Hid3 & Hp3).
  exists m3. split; [done|]. split; congruence.
Qed.

Lemma meshes_kept_update f t c :
  keeps_identity f → meshes_kept c (update_mesh t f c).
Proof.
  intros Hf h m Hm. rewrite lookup_update_mesh, Hm.
  case_decide; [|by exists m]. exists (f m). by destruct (Hf m).
Qed.

Lemma meshes_kept_refs c sel hov :
  meshes_kept c (mkController (scene_meshes c) (entities c) sel hov).
Proof. intros h m Hm. by exists m. Qed.

Lemma meshes_kept_create e c : meshes_kept c (createEntity e c).2.
Proof.
  intros h m Hm. exists m. split; [|done]. simpl.
  rewrite lookup_app_l; [done|]. by eapply lookup_lt_Some.
Qed.

Lemma meshes_kept_setEntity e c : meshes_kept c (setEntity e c).
Proof.
  destruct (entities c !! entity_id e) as [t|] eqn:Hget.
  - rewrite (setEntity_known e c t Hget).
    apply meshes_kept_update, keeps_identity_place.
  - rewrite (setEntity_new e c Hget).
    eapply meshes_kept_trans; [apply meshes_kept_create|].
    apply meshes_kept_update, keeps_identity_place.
Qed.

Lemma meshes_kept_hide_fold hs c : meshes_kept c (hide_fold hs c).
Proof.
  revert c. induction hs as [|a hs IH]; intros c; [apply meshes_kept_refl|].
  simpl. eapply meshes_kept_trans; [|apply IH].
  apply meshes_kept_update, keeps_identity_enabled.
Qed.

Lemma meshes_kept_restore c : meshes_kept c (restore_hovered c).
Proof.
  unfold restore_hovered. destruct (hoveredEntity c);
    [|apply meshes_kept_refl].
  case_decide; apply meshes_kept_update, keeps_identity_material.
Qed.

Lemma meshes_kept_mark id c : meshes_kept c (markEntityAsSelected id c).
Proof.
  unfold markEntityAsSelected.
  destruct (entities c !! id); [|apply meshes_kept_refl]. cbv zeta.
  eapply meshes_kept_trans; [|apply meshes_kept_refs].
  eapply meshes_kept_trans;
    [|apply meshes_kept_update, keeps_identity_material].
  destruct (selectedEntity c); [|apply meshes_kept_refl].
  apply meshes_kept_update, keeps_identity_material.
Qed.

Lemma meshes_kept_hover id c : meshes_kept c (onEntityHovered id c).
Proof.
  unfold onEntityHovered.
  destruct (entities c !! id); [|apply meshes_kept_refl]. cbv zeta.
  eapply meshes_kept_trans; [|apply meshes_kept_refs].
  eapply meshes_kept_trans;
    [|apply meshes_kept_update, keeps_identity_material].
  apply meshes_kept_restore.
Qed.

Lemma meshes_kept_stop c : meshes_kept c (onEntityStopHovered c).
Proof.
  unfold onEntityStopHovered.
  eapply meshes_kept_trans; [apply meshes_kept_restore|].
  apply meshes_kept_refs.
Qed.

Lemma onPointerDown_state p c c' calls :
  onPointerDown p c = Some (c', calls) → c' = c.
Proof.
  unfold onPointerDown. destruct (hit p); [|by intros [= <- _]].
  destruct (pickedMesh p ≫= _); simpl; [by intros [= <- _] | done].
Qed.

Lemma meshes_kept_run_op c o : meshes_kept c (run_op c o).
Proof.
  destruct o as [e|e| |id|id| |p|p]; simpl.
  - apply meshes_kept_create.
  - apply meshes_kept_setEntity.
  - apply meshes_kept_hide_fold.
  - apply meshes_kept_mark.
  - apply meshes_kept_hover.
  - apply meshes_kept_stop.
  - destruct (onPointerDown p c) as [[c' calls]|] eqn:Hdown; simpl;
      [|apply meshes_kept_refl].
    apply onPointerDown_state in Hdown as ->. apply meshes_kept_refl.
  - unfold onPointerMove. destruct (hit p); simpl.
    + destruct (pickedMesh p ≫= _) as [m|]; simpl; [|apply meshes_kept_refl].
      destruct (JS.parseInt (mesh_id m)); [|apply meshes_kept_refl].
      apply meshes_kept_hover.
    + apply meshes_kept_stop.
Qed.

Lemma meshes_kept_run ops c : meshes_kept c (run ops c).
Proof.
  revert c. induction ops as [|o ops IH]; intros c; [apply meshes_kept_refl|].
  simpl. eapply meshes_kept_trans; [apply meshes_kept_run_op | apply IH].
Qed.

(** C9, as the code has it: for an entity whose id is an integer number
    below [10 ^ 21] in absolute value, the stamp that [createEntity] gives
    the mesh reads back as the id; whatever operations follow, a
    pointer-down that picks this mesh calls [onEntitySelected] with
    exactly that id.  The handler returns the state it was given. *)
Theorem pointer_down_round_trip e c ops :
  JS.is_number (entity_id e) → Z.abs (entity_id e) < 10 ^ 21 →
  let h := (createEntity e c).1 in
  let c' := run ops (createEntity e c).2 in
  (JS.parseInt <$> (mesh_id <$> scene_meshes (createEntity e c).2 !! h)
   = Some (Some (entity_id e)))
  ∧ onPointerDown (mkPick true (Some h)) c'
    = Some (c', [OnEntitySelected (Some (entity_id e))])
  ∧ ∀ p c0 c1 calls, onPointerDown p c0 = Some (c1, calls) → c1 = c0.
Proof.
  intros Hnum Hlt h c'.
  pose proof (JSFacts.parseInt_number_to_string (entity_id e) Hnum Hlt)
    as Hparse.
  assert (∃ m, scene_meshes (createEntity e c).2 !! h = Some m
               ∧ mesh_id m = JS.number_to_string (entity_id e))
    as (m & Hm & Hstamp).
  { eexists.
    split; [simpl; by rewrite lookup_app_r, Nat.sub_diag | reflexivity]. }
  split; [|split].
  - rewrite Hm. simpl. by rewrite Hstamp, Hparse.
  - destruct (meshes_kept_run ops _ h m Hm) as (m' & Hm' & Hid & _).
    fold c' in Hm'. unfold onPointerDown. simpl. rewrite Hm'. simpl.
    by rewrite Hid, Hstamp, Hparse.
  - apply onPointerDown_state.
Qed.

(** ** Further properties of the scene controller *)

Lemma controller_eq c c' :
  scene_meshes c = scene_meshes c' → entities c = entities c' →
  selectedEntity c = selectedEntity c' → hoveredEntity c = hoveredEntity c' →
  c = c'.
Proof. destruct c, c'. simpl. by intros -> -> -> ->. Qed.

(** *** [setEntity] *)

Lemma createEntity_same_id e1 e2 c :
  entity_id e1 = entity_id e2 → createEntity e1 c = createEntity e2 c.
Proof. intros Hid. unfold Scene.createEntity. by rewrite Hid. Qed.

(** Of two [setEntity] calls for the same id, the second decides: the
    state is the one the second call alone leaves, whether or not the id
    had a mesh before. *)
Theorem setEntity_last_wins e1 e2 c :
  entity_id e1 = entity_id e2 →
  setEntity e2 (setEntity e1 c) = setEntity e2 c.
Proof.
  intros Hid. destruct (entities c !! entity_id e1) as [h|] eqn:Hget.
  - rewrite (setEntity_known e1 c h Hget).
    rewrite (setEntity_known e2 _ h) by (by rewrite <- Hid).
    rewrite (setEntity_known e2 c h) by (by rewrite <- Hid).
    rewrite update_mesh_twice. by apply update_mesh_ext.
  - rewrite (setEntity_new e1 c Hget).
    rewrite (setEntity_known e2 _ (length (scene_meshes c))).
    + rewrite (setEntity_new e2 c) by (by rewrite <- Hid).
      rewrite update_mesh_twice, (createEntity_same_id e1 e2 c Hid).
      by apply update_mesh_ext.
    + simpl. rewrite <- Hid. apply lookup_insert_eq.
Qed.

(** After [setEntity], in any state the operations lead to, the map has a
    mesh for the entity's id, and that mesh is enabled and at the entity's
    position; a mesh made by this call is the last of the scene and has
    the default material. *)
Theorem setEntity_places_mesh ops e :
  let c := run ops initial in
  ∃ h, entities (setEntity e c) !! entity_id e = Some h
       ∧ position_at (setEntity e c) h = Some (getEntityPosition e)
       ∧ enabled_at (setEntity e c) h = Some true
       ∧ (entities c !! entity_id e = None →
            h = length (scene_meshes c)
            ∧ material_at (setEntity e c) h = Some entityMaterial).
Proof.
  intros c. assert (reachable c) as Hreach by (by exists ops).
  destruct (reachable_invariant c Hreach) as [Hc _].
  destruct (entities c !! entity_id e) as [h|] eqn:Hget.
  - exists h. destruct (coh_entities c Hc _ h Hget) as (m & Hm & _).
    rewrite (setEntity_known e c h Hget). split; [exact Hget|].
    unfold position_at, enabled_at. rewrite lookup_update_mesh, Hm.
    rewrite decide_True by done. done.
  - exists (length (scene_meshes c)). rewrite (setEntity_new e c Hget).
    split; [simpl; apply lookup_insert_eq|].
    unfold position_at, enabled_at, material_at.
    rewrite lookup_update_mesh, decide_True by done. simpl.
    rewrite lookup_app_r, Nat.sub_diag by done. done.
Qed.

(** [setEntity] calls for two entities that both have a mesh, with
    distinct ids, can be exchanged. *)
Theorem setEntity_commute c e1 e2 :
  reachable c → entity_id e1 ≠ entity_id e2 →
  is_Some (entities c !! entity_id e1) →
  is_Some (entities c !! entity_id e2) →
  setEntity e1 (setEntity e2 c) = setEntity e2 (setEntity e1 c).
Proof.
  intros Hreach Hne [h1 H1] [h2 H2].
  destruct (reachable_invariant c Hreach) as [Hc _].
  assert (h1 ≠ h2) as Hh.
  { intros ->. apply Hne. eapply (coh_injective c Hc); eauto. }
  rewrite (setEntity_known e2 c h2 H2), (setEntity_known e1 c h1 H1).
  rewrite (setEntity_known e1 _ h1) by done.
  rewrite (setEntity_known e2 _ h2) by done.
  unfold update_mesh, with_meshes. simpl. f_equal.
  by apply list_alter_alter_ne.
Qed.

(** *** [hideAllEntities] *)

Lemma hide_fold_twice hs c : hide_fold hs (hide_fold hs c) = hide_fold hs c.
Proof.
  destruct (hide_fold_fields hs c) as (He & Hs & Hh).
  destruct (hide_fold_fields hs (hide_fold hs c)) as (He' & Hs' & Hh').
  apply controller_eq; try congruence.
  apply list_eq. intros i. rewrite !hide_fold_lookup.
  case_decide; [|done]. by destruct (scene_meshes c !! i).
Qed.

(** A second [hideAllEntities] changes nothing. *)
Theorem hideAllEntities_idempotent c :
  hideAllEntities (hideAllEntities c) = hideAllEntities c.
Proof.
  unfold hideAllEntities at 1. unfold entity_values.
  destruct (hideAllEntities_fields c) as (-> & _).
  apply hide_fold_twice.
Qed.

(** *** The meshes of the scene *)

Lemma length_update_mesh f h c :
  length (scene_meshes (update_mesh h f c)) = length (scene_meshes c).
Proof. apply length_alter. Qed.

Lemma length_hide_fold hs c :
  length (scene_meshes (hide_fold hs c)) = length (scene_meshes c).
Proof.
  revert c. induction hs as [|a hs IH]; intros c; [done|].
  simpl. by rewrite IH, length_update_mesh.
Qed.

Lemma length_restore c :
  length (scene_meshes (restore_hovered c)) = length (scene_meshes c).
Proof.
  unfold restore_hovered. destruct (hoveredEntity c); [|done].
  case_decide; apply length_update_mesh.
Qed.

Lemma length_other_op c o :
  visibility_op o = false →
  length (scene_meshes (run_op c o)) = length (scene_meshes c).
Proof.
  destruct o as [e|e| |id|id| |p|p]; try done; intros _; simpl.
  - unfold markEntityAsSelected. destruct (entities c !! id); [|done].
    simpl. rewrite length_alter. destruct (selectedEntity c); [|done].
    apply length_update_mesh.
  - unfold onEntityHovered. destruct (entities c !! id); [|done].
    simpl. rewrite length_alter. apply length_restore.
  - apply length_restore.
  - unfold onPointerDown. destruct (hit p); [|done].
    by destruct (pickedMesh p ≫= _).
  - unfold onPointerMove. destruct (hit p); simpl; [|apply length_restore].
    destruct (pickedMesh p ≫= _) as [m|]; [|done]. simpl.
    destruct (JS.parseInt (mesh_id m)); [|done].
    unfold onEntityHovered. destruct (entities c !! z); [|done].
    simpl. rewrite length_alter. apply length_restore.
Qed.

(** The scene holds the grid and at least one mesh per id of the map;
    [guarded] tells whether the count is exact so far. *)
Lemma scene_size_run ops c :
  (S (size (entities c)) <= length (scene_meshes c))%nat →
  (S (size (entities (run ops c))) <= length (scene_meshes (run ops c)))%nat
  ∧ (guarded ops c = true →
     length (scene_meshes c) = S (size (entities c)) →
     length (scene_meshes (run ops c)) = S (size (entities (run ops c)))).
Proof.
  revert c. induction ops as [|o ops IH]; intros c Hle; [done|].
  simpl.
  assert ((S (size (entities (run_op c o)))
           <= length (scene_meshes (run_op c o)))%nat
          ∧ (guard c o = true →
             length (scene_meshes c) = S (size (entities c)) →
             length (scene_meshes (run_op c o))
             = S (size (entities (run_op c o))))) as [Hle' Heq'].
  { destruct (visibility_op o) eqn:Hv.
    - destruct o as [e|e| | | | | |]; try done.
      + change (run_op c (CreateEntity e)) with (createEntity e c).2.
        rewrite entities_create. simpl. rewrite length_app, map_size_insert.
        simpl. split.
        * destruct (entities c !! entity_id e); unfold id; lia.
        * intros Hg%bool_decide_eq_true. rewrite Hg. lia.
      + change (run_op c (SetEntity e)) with (setEntity e c).
        destruct (entities c !! entity_id e) as [h|] eqn:Hget.
        * rewrite (setEntity_known e c h Hget), length_update_mesh. done.
        * rewrite (setEntity_new e c Hget), length_update_mesh. simpl.
          rewrite length_app, map_size_insert_None by done. simpl. lia.
      + change (run_op c HideAllEntities) with (hideAllEntities c).
        destruct (hideAllEntities_fields c) as (-> & _).
        unfold hideAllEntities. rewrite length_hide_fold. done.
    - destruct (other_op_frame c o Hv) as (-> & _).
      rewrite (length_other_op c o Hv). done. }
  destruct (IH (run_op c o) Hle') as [Hle'' Heq''].
  split; [done|]. intros [Hg Hgs]%andb_true_iff Heq. auto.
Qed.

(** No operation removes a mesh: the scene holds the grid and at least
    one mesh per id of the map, and exactly one per id as long as
    [createEntity] is not called for an id that has a mesh. *)
Theorem scene_size ops :
  let c := run ops initial in
  (S (size (entities c)) <= length (scene_meshes c))%nat
  ∧ (guarded ops initial = true →
     length (scene_meshes c) = S (size (entities c))).
Proof.
  intros c. destruct (scene_size_run ops initial) as [Hle Heq].
  - simpl. by rewrite map_size_empty.
  - split; [done|]. intros Hg. apply Heq; [done|].
    simpl. by rewrite map_size_empty.
Qed.

(** A mesh that is not pickable is left as it is by every operation. *)
Lemma unpickable_kept c o i m :
  coherent c → scene_meshes c !! i = Some m → mesh_isPickable m = false →
  scene_meshes (run_op c o) !! i = Some m.
Proof.
  intros Hc Hm Hp.
  assert (∀ h, entity_mesh c h → h ≠ i) as Hother.
  { intros h (m' & Hm' & Hp') ->. congruence. }
  assert (∀ id h, entities c !! id = Some h → h ≠ i) as Htracked.
  { intros id h Hid. eapply Hother, coherent_tracked; eauto. }
  assert (scene_meshes (restore_hovered c) !! i = Some m) as Hrestore.
  { unfold restore_hovered. destruct (hoveredEntity c) as [p|] eqn:Hhov;
      [|done].
    pose proof (Hother p (coh_hovered c Hc p Hhov)).
    case_decide; by rewrite lookup_update_mesh, decide_False. }
  assert (∀ id, scene_meshes (onEntityHovered id c) !! i = Some m) as Hhover.
  { intros id. unfold onEntityHovered.
    destruct (entities c !! id) as [t|] eqn:Hid; [|done]. simpl.
    rewrite lookup_alter_mesh, decide_False by eauto. done. }
  destruct o as [e|e| |id|id| |p|p]; simpl.
  - rewrite lookup_app_l; [done|]. by eapply lookup_lt_Some.
  - change (scene_meshes (setEntity e c) !! i = Some m).
    destruct (setEntity_frame e c) as (_ & _ & _ & _ & Hframe).
    destruct (Hframe i m Hm) as (m' & -> & _ & Hsame).
    rewrite Hsame; [done|]. intros Hget. by eapply Htracked.
  - change (scene_meshes (hideAllEntities c) !! i = Some m).
    rewrite hideAllEntities_lookup, decide_False; [done|].
    intros [id Hid]%elem_of_entity_values. by eapply Htracked.
  - unfold markEntityAsSelected.
    destruct (entities c !! id) as [t|] eqn:Hid; [|done]. simpl.
    rewrite lookup_alter_mesh, decide_False by eauto.
    destruct (selectedEntity c) as [s|] eqn:Hsel; [|done].
    pose proof (Hother s (coh_selected c Hc s Hsel)).
    by rewrite lookup_update_mesh, decide_False.
  - apply Hhover.
  - exact Hrestore.
  - unfold onPointerDown. destruct (hit p); [|done].
    by destruct (pickedMesh p ≫= _).
  - unfold onPointerMove. destruct (hit p); simpl; [|exact Hrestore].
    destruct (pickedMesh p ≫= _) as [m'|]; [|done]. simpl.
    destruct (JS.parseInt (mesh_id m')); [apply Hhover | done].
Qed.

(** The grid plane stays the first mesh of the scene, as [createScene]
    made it: no operation of the controller changes it. *)
Theorem grid_untouched ops :
  scene_meshes (run ops initial) !! 0%nat = Some grid.
Proof.
  assert (∀ c, coherent c → scene_meshes c !! 0%nat = Some grid →
            scene_meshes (run ops c) !! 0%nat = Some grid) as Hgen.
  { induction ops as [|o ops IH]; intros c Hc Hgrid; [done|].
    simpl. apply IH; [by apply coherent_run_op|].
    by apply unpickable_kept. }
  apply Hgen; [apply coherent_initial | done].
Qed.

(** *** Selecting and hovering once more *)

Lemma mark_meshes id t c :
  entities c !! id = Some t →
  scene_meshes (markEntityAsSelected id c)
  = alter (set_material selectedMaterial) t
      (from_option (fun s => alter (set_material entityMaterial) s
                                   (scene_meshes c))
                   (scene_meshes c) (selectedEntity c)).
Proof.
  intros Hid. unfold markEntityAsSelected. rewrite Hid. simpl.
  by destruct (selectedEntity c).
Qed.

Lemma restore_meshes p c :
  hoveredEntity c = Some p →
  scene_meshes (restore_hovered c)
  = alter (set_material (if decide (Some p = selectedEntity c)
                         then selectedMaterial else entityMaterial))
          p (scene_meshes c).
Proof.
  intros Hp. unfold restore_hovered. rewrite Hp. by case_decide.
Qed.

Lemma hover_meshes id t c :
  entities c !! id = Some t →
  scene_meshes (onEntityHovered id c)
  = alter (set_material hoveredMaterial) t (scene_meshes (restore_hovered c)).
Proof. intros Hid. unfold onEntityHovered. by rewrite Hid. Qed.

(** Selecting the entity that was selected by the last call changes
    nothing: [markEntityAsSelected] is idempotent. *)
Theorem markEntityAsSelected_idempotent id c :
  markEntityAsSelected id (markEntityAsSelected id c)
  = markEntityAsSelected id c.
Proof.
  destruct (entities c !! id) as [t|] eqn:Hid.
  2: { unfold markEntityAsSelected. by rewrite !Hid. }
  destruct (markEntityAsSelected_fields id t c Hid) as (He & Hs & Hh).
  assert (entities (markEntityAsSelected id c) !! id = Some t) as Hid'
    by (by rewrite He).
  destruct (markEntityAsSelected_fields id t _ Hid') as (He' & Hs' & Hh').
  apply controller_eq; try congruence.
  rewrite (mark_meshes id t _ Hid'), Hs. simpl.
  rewrite (mark_meshes id t c Hid).
  rewrite !list_alter_alter_eq. by apply list_alter_ext.
Qed.

(** Hovering the entity that is hovered already changes nothing:
    [onEntityHovered] is idempotent. *)
Theorem onEntityHovered_idempotent id c :
  onEntityHovered id (onEntityHovered id c) = onEntityHovered id c.
Proof.
  destruct (entities c !! id) as [t|] eqn:Hid.
  2: { unfold onEntityHovered. by rewrite !Hid. }
  destruct (onEntityHovered_fields id t c Hid) as (He & Hs & Hh).
  assert (entities (onEntityHovered id c) !! id = Some t) as Hid'
    by (by rewrite He).
  destruct (onEntityHovered_fields id t _ Hid') as (He' & Hs' & Hh').
  apply controller_eq; try congruence.
  rewrite (hover_meshes id t _ Hid'), (restore_meshes t _ Hh).
  rewrite (hover_meshes id t c Hid).
  rewrite !list_alter_alter_eq. by apply list_alter_ext.
Qed.

(** After [onEntityStopHovered], in any state the operations lead to, no
    mesh of the scene shows the hover material. *)
Theorem stop_hover_clears_hover_material ops h :
  material_at (onEntityStopHovered (run ops initial)) h
  ≠ Some hoveredMaterial.
Proof.
  assert (reachable (run_op (run ops initial) OnEntityStopHovered)) as Hreach
    by (apply reachable_run_op; by exists ops).
  destruct (reachable_invariant _ Hreach) as [_ Hm].
  intros Hmat. by apply (mat_hovered_only _ Hm) in Hmat.
Qed.

(** When nothing is hovered, hovering an entity and then leaving it gives
    the state back: every material is as before. *)
Theorem hover_then_stop c id :
  reachable c → hoveredEntity c = None →
  onEntityStopHovered (onEntityHovered id c) = c.
Proof.
  intros Hreach Hnone.
  destruct (reachable_invariant c Hreach) as [Hc [H3 Hs Hh Hos]].
  assert (restore_hovered c = c) as Hrest
    by (unfold restore_hovered; by rewrite Hnone).
  destruct (entities c !! id) as [t|] eqn:Hid.
  2: { unfold onEntityHovered. rewrite Hid. unfold onEntityStopHovered.
       rewrite Hrest. destruct c. simpl in *. by subst. }
  destruct (onEntityHovered_fields id t c Hid) as (He & Hsel & Hhov).
  destruct (restore_hovered_fields (onEntityHovered id c)) as (He' & Hs' & _).
  apply controller_eq; simpl; try congruence.
  rewrite (restore_meshes t _ Hhov), (hover_meshes id t c Hid), Hrest, Hsel.
  rewrite list_alter_alter_eq.
  rewrite <- (list_alter_id (fun m => m) (scene_meshes c) t) at 2 by done.
  apply list_alter_ext; [|done]. intros m Hm. simpl.
  assert (material_at c t = Some (mesh_material m)) as Hmat
    by (unfold material_at; by rewrite Hm).
  assert (hoveredEntity c ≠ Some t) as Hnh by congruence.
  assert (mesh_material m
          = if decide (Some t = selectedEntity c) then selectedMaterial
            else entityMaterial) as Hm'.
  { case_decide as Hsel'.
    - destruct (Hos t (eq_sym Hsel')) as [? | [? _]]; congruence.
    - destruct (H3 t (coherent_tracked c id t Hc Hid)) as [?|[Hx|Hx]];
        [congruence | |].
      + apply Hs in Hx. congruence.
      + apply Hh in Hx. congruence. }
  destruct m. simpl in *. by rewrite <- Hm'.
Qed.

(** In every state the operations lead to at most one mesh shows the
    selected material; and when A and B are distinct ids of the map,
    after [markEntityAsSelected(A)] then [markEntityAsSelected(B)] the
    mesh of B is the selected mesh and shows the selected material, and
    the mesh of A shows the default material. *)
Theorem selection_handoff c :
  reachable c →
  (∀ h1 h2, material_at c h1 = Some selectedMaterial →
            material_at c h2 = Some selectedMaterial → h1 = h2)
  ∧ ∀ A B a b, A ≠ B →
      entities c !! A = Some a → entities c !! B = Some b →
      let c' := markEntityAsSelected B (markEntityAsSelected A c) in
      a ≠ b
      ∧ selectedEntity c' = Some b
      ∧ material_at c' b = Some selectedMaterial
      ∧ material_at c' a = Some entityMaterial.
Proof.
  intros Hreach. pose proof (reachable_invariant c Hreach) as Hinv.
  pose proof Hinv as [Hc [H3 Hs Hh Hos]]. split.
  { intros h1 h2 H1%Hs H2%Hs. congruence. }
  intros A B a b HAB HA HB c'.
  assert (a ≠ b) as Hab.
  { intros ->. apply HAB. eapply (coh_injective c Hc); eauto. }
  destruct (markEntityAsSelected_fields A a c HA) as (He1 & Hs1 & Hh1).
  assert (entities (markEntityAsSelected A c) !! B = Some b) as HB1
    by (by rewrite He1).
  destruct (markEntityAsSelected_fields B b _ HB1) as (He2 & Hs2 & Hh2).
  destruct (tracked_material c A a Hinv HA) as [ma Hma].
  destruct (tracked_material c B b Hinv HB) as [mb Hmb].
  split; [done|]. split; [done|]. split.
  - unfold c'. rewrite (material_at_mark B b _ b HB1), decide_True by done.
    rewrite (material_at_mark A a c b HA), decide_False by done.
    case_decide; by rewrite Hmb.
  - unfold c'. rewrite (material_at_mark B b _ a HB1).
    rewrite decide_False by done. rewrite Hs1, decide_True by done.
    rewrite (material_at_mark A a c a HA), decide_True by done.
    by rewrite Hma.
Qed.

(** A pointer-move over the mesh of an entity of the map, whose id is an
    integer number below [10 ^ 21], hovers that entity: the mesh becomes
    the hovered mesh and shows the hover material. *)
Theorem pointer_move_hovers c id h :
  reachable c → entities c !! id = Some h →
  JS.is_number id → Z.abs id < 10 ^ 21 →
  onPointerMove (mkPick true (Some h)) c = Some (onEntityHovered id c)
  ∧ hoveredEntity (onEntityHovered id c) = Some h
  ∧ material_at (onEntityHovered id c) h = Some hoveredMaterial.
Proof.
  intros Hreach Hid Hnum Hlt.
  pose proof (reachable_invariant c Hreach) as Hinv.
  destruct Hinv as [Hc Hm].
  destruct (coh_entities c Hc id h Hid) as (m & Hlook & _ & Hstamp).
  split; [|split].
  - unfold onPointerMove. simpl. rewrite Hlook. simpl.
    by rewrite Hstamp, (JSFacts.parseInt_number_to_string id Hnum Hlt).
  - by destruct (onEntityHovered_fields id h c Hid) as (_ & _ & ->).
  - rewrite (material_at_hover id h c h Hid), decide_True by done.
    unfold material_at. by rewrite Hlook.
Qed.

(** The meshes of two distinct ids of the map, both integer numbers below
    [10 ^ 21], carry distinct stamps: a pick tells them apart. *)
Theorem distinct_ids_distinct_stamps c i j a b ma mb :
  reachable c → i ≠ j →
  entities c !! i = Some a → entities c !! j = Some b →
  scene_meshes c !! a = Some ma → scene_meshes c !! b = Some mb →
  JS.is_number i → Z.abs i < 10 ^ 21 →
  JS.is_number j → Z.abs j < 10 ^ 21 →
  mesh_id ma ≠ mesh_id mb.
Proof.
  intros Hreach Hij Hi Hj Ha Hb Hni Hli Hnj Hlj Heq.
  destruct (reachable_invariant c Hreach) as [Hc _].
  destruct (coh_entities c Hc i a Hi) as (ma' & Ha' & _ & Hsa).
  destruct (coh_entities c Hc j b Hj) as (mb' & Hb' & _ & Hsb).
  simplify_eq. apply Hij.
  apply JSFacts.number_to_string_inj; congruence.
Qed.

(** *** The references of the controller *)

(** The selected and the hovered mesh, when there is one, are entity
    meshes of the scene (never a dangling reference, never the grid); as
    long as [createEntity] is not called for an id that has a mesh, each
    is the mesh the map holds for some id. *)
Theorem back_references_valid ops :
  let c := run ops initial in
  (∀ h, selectedEntity c = Some h → entity_mesh c h)
  ∧ (∀ h, hoveredEntity c = Some h → entity_mesh c h)
  ∧ (guarded ops initial = true →
     (∀ h, selectedEntity c = Some h → ∃ id, entities c !! id = Some h)
     ∧ (∀ h, hoveredEntity c = Some h → ∃ id, entities c !! id = Some h)).
Proof.
  intros c. assert (reachable c) as Hreach by (by exists ops).
  destruct (reachable_invariant c Hreach) as [Hc _].
  split; [apply (coh_selected c Hc)|]. split; [apply (coh_hovered c Hc)|].
  intros Hg.
  destruct (guarded_run ops initial [] Hg coherent_initial all_tracked_initial
              enabled_reflects_initial) as (_ & Hall & _).
  split; intros h Hh; apply Hall.
  - by apply (coh_selected c Hc).
  - by apply (coh_hovered c Hc).
Qed.

Lemma tracked_run_op c o id h :
  entities c !! id = Some h →
  is_Some (entities (run_op c o) !! id)
  ∧ (guard c o = true → entities (run_op c o) !! id = Some h).
Proof.
  intros Hid. destruct (visibility_op o) eqn:Hv.
  - destruct o as [e|e| | | | | |]; try done.
    + change (run_op c (CreateEntity e)) with (createEntity e c).2.
      rewrite entities_create, lookup_insert. case_decide as He.
      * split; [by eexists|]. intros Hg%bool_decide_eq_true. congruence.
      * rewrite Hid. split; [by eexists | done].
    + change (run_op c (SetEntity e)) with (setEntity e c).
      destruct (setEntity_frame e c) as (_ & _ & Hother & Hsame & _).
      destruct (decide (id = entity_id e)) as [-> | Hne].
      * rewrite Hsame, Hid by (by eexists). split; [by eexists | done].
      * rewrite (Hother id Hne), Hid. split; [by eexists | done].
    + change (run_op c HideAllEntities) with (hideAllEntities c).
      destruct (hideAllEntities_fields c) as (-> & _).
      rewrite Hid. split; [by eexists | done].
  - destruct (other_op_frame c o Hv) as (-> & _).
    rewrite Hid. split; [by eexists | done].
Qed.

(** An id of the map stays in the map, whatever operations follow; and
    as long as [createEntity] is not called for an id that has a mesh, it
    keeps the mesh it has. *)
Theorem tracked_stays_tracked ops c id h :
  entities c !! id = Some h →
  is_Some (entities (run ops c) !! id)
  ∧ (guarded ops c = true → entities (run ops c) !! id = Some h).
Proof.
  revert c h. induction ops as [|o ops IH]; intros c h Hid.
  - split; [by eexists | done].
  - simpl. destruct (tracked_run_op c o id h Hid) as [[h' Hh'] Hkeep].
    split.
    + apply (IH _ h' Hh').
    + intros [Hg Hgs]%andb_true_iff.
      apply (proj2 (IH _ h (Hkeep Hg)) Hgs).
Qed.

End SceneProperties.

(** ** Scenarios *)

Section Scenarios.

Import Sample.
Local Open Scope list_scope.

Abbreviation reachable := (reachable origin ent_id ent_position).
Abbreviation createEntity := (createEntity origin ent_id).
Abbreviation setEntity := (setEntity origin ent_id ent_position).
Abbreviation update_pass := (update_pass origin ent_id ent_position).
Abbreviation run := (run origin ent_id ent_position).
Abbreviation guarded := (guarded origin ent_id ent_position).
Abbreviation latest_pass := (latest_pass ent_id).

Lemma reachable_exec ops : reachable (exec ops).
Proof. exists ops. reflexivity. Defined.

(** C1 as stated fails: entity 5 is selected, then hovered; its mesh is
    both the selected and the hovered mesh, and it displays the hover
    material, not the selected one. *)
Lemma hovered_selected_mesh_shows_hover :
  entities (exec selected_then_hovered) !! 5 = Some 1%nat
  ∧ selectedEntity (exec selected_then_hovered) = Some 1%nat
  ∧ hoveredEntity (exec selected_then_hovered) = Some 1%nat
  ∧ material_at (exec selected_then_hovered) 1 = Some hoveredMaterial
  ∧ material_at (exec selected_then_hovered) 1 ≠ Some selectedMaterial.
Proof. vm_compute. repeat split; congruence. Qed.

(** Entity 1 is selected and hovered, then entity 2 is selected: the
    mesh of entity 1 is still the hovered mesh and displays the default
    material. *)
Example deselected_while_hovered :
  hoveredEntity
    (exec [SetEntity entity1; SetEntity entity2; MarkEntityAsSelected 1;
           OnEntityHovered 1; MarkEntityAsSelected 2]) = Some 1%nat
  ∧ material_at
      (exec [SetEntity entity1; SetEntity entity2; MarkEntityAsSelected 1;
             OnEntityHovered 1; MarkEntityAsSelected 2]) 1
    = Some entityMaterial.
Proof. vm_compute. done. Qed.

Lemma material_of_tracked_mesh_witness :
  reachable (exec selected_then_hovered)
  ∧ entities (exec selected_then_hovered) !! 5 = Some 1%nat
  ∧ (material_at (exec selected_then_hovered) 1 = Some entityMaterial
     ∨ material_at (exec selected_then_hovered) 1 = Some selectedMaterial
     ∨ material_at (exec selected_then_hovered) 1 = Some hoveredMaterial)
  ∧ (material_at (exec selected_then_hovered) 1 = Some selectedMaterial →
       selectedEntity (exec selected_then_hovered) = Some 1%nat)
  ∧ (material_at (exec selected_then_hovered) 1 = Some hoveredMaterial →
       hoveredEntity (exec selected_then_hovered) = Some 1%nat)
  ∧ (selectedEntity (exec selected_then_hovered) ≠ Some 1%nat →
     hoveredEntity (exec selected_then_hovered) ≠ Some 1%nat →
       material_at (exec selected_then_hovered) 1 = Some entityMaterial)
  ∧ (selectedEntity (exec selected_then_hovered) = Some 1%nat →
     hoveredEntity (exec selected_then_hovered) ≠ Some 1%nat →
       material_at (exec selected_then_hovered) 1 = Some selectedMaterial)
  ∧ (selectedEntity (exec selected_then_hovered) = Some 1%nat →
     hoveredEntity (exec selected_then_hovered) = Some 1%nat →
       material_at (exec selected_then_hovered) 1 = Some selectedMaterial
       ∨ material_at (exec selected_then_hovered) 1 = Some hoveredMaterial)
  ∧ (let c' := onEntityHovered 5 (exec selected_then_hovered) in
     hoveredEntity c' = Some 1%nat
     ∧ selectedEntity c' = selectedEntity (exec selected_then_hovered)
     ∧ material_at c' 1 = Some hoveredMaterial)
  ∧ (let c' := markEntityAsSelected 5 (exec selected_then_hovered) in
     selectedEntity c' = Some 1%nat
     ∧ hoveredEntity c' = hoveredEntity (exec selected_then_hovered)
     ∧ material_at c' 1 = Some selectedMaterial
     ∧ reachable c').
Proof.
  pose proof (reachable_exec selected_then_hovered) as Hr.
  assert (entities (exec selected_then_hovered) !! 5 = Some 1%nat) as Hid
    by reflexivity.
  exact (conj Hr (conj Hid
    (material_of_tracked_mesh origin ent_id ent_position
       (exec selected_then_hovered) 5 1%nat Hr Hid))).
Defined.

Lemma stop_hover_keeps_selected_witness :
  reachable (exec selected_then_hovered)
  ∧ selectedEntity (exec selected_then_hovered) = Some 1%nat
  ∧ hoveredEntity (exec selected_then_hovered) = Some 1%nat
  ∧ material_at (onEntityStopHovered (exec selected_then_hovered)) 1
    = Some selectedMaterial
  ∧ hoveredEntity (onEntityStopHovered (exec selected_then_hovered)) = None.
Proof.
  pose proof (reachable_exec selected_then_hovered) as Hr.
  assert (selectedEntity (exec selected_then_hovered) = Some 1%nat) as Hs
    by reflexivity.
  assert (hoveredEntity (exec selected_then_hovered) = Some 1%nat) as Hh
    by reflexivity.
  exact (conj Hr (conj Hs (conj Hh
    (stop_hover_keeps_selected origin ent_id ent_position
       (exec selected_then_hovered) 1%nat Hr Hs Hh)))).
Defined.

Lemma hover_handoff_witness :
  reachable (exec frame_n)
  ∧ entities (exec frame_n) !! 1 = Some 1%nat
  ∧ entities (exec frame_n) !! 2 = Some 2%nat
  ∧ (let c' := onEntityHovered 2 (onEntityHovered 1 (exec frame_n)) in
     1%nat ≠ 2%nat
     ∧ material_at c' 1
       = Some (if decide (selectedEntity (exec frame_n) = Some 1%nat)
               then selectedMaterial else entityMaterial)
     ∧ (hoveredEntity (exec frame_n) ≠ Some 1%nat →
          material_at c' 1 = material_at (exec frame_n) 1)
     ∧ material_at c' 2 = Some hoveredMaterial
     ∧ hoveredEntity c' = Some 2%nat).
Proof.
  pose proof (reachable_exec frame_n) as Hr.
  assert (entities (exec frame_n) !! 1 = Some 1%nat) as H1 by reflexivity.
  assert (entities (exec frame_n) !! 2 = Some 2%nat) as H2 by reflexivity.
  assert (1 ≠ 2) as Hne by discriminate.
  exact (conj Hr (conj H1 (conj H2
    (proj2 (hover_handoff origin ent_id ent_position (exec frame_n) Hr)
       1 2 1%nat 2%nat Hne H1 H2)))).
Defined.

Lemma unknown_id_noop_witness :
  entities (exec frame_n) !! 7 = None
  ∧ markEntityAsSelected 7 (exec frame_n) = exec frame_n
  ∧ onEntityHovered 7 (exec frame_n) = exec frame_n.
Proof.
  assert (entities (exec frame_n) !! 7 = None) as Hnone by reflexivity.
  exact (conj Hnone (unknown_id_noop (exec frame_n) 7 Hnone)).
Defined.

Lemma hide_then_show_witness :
  reachable (exec frame_n)
  ∧ (∀ e, e ∈ [entity1; entity3] →
       is_Some (entities (exec frame_n) !! ent_id e))
  ∧ (∀ id h, entities (exec frame_n) !! id = Some h →
       enabled_at (hideAllEntities (exec frame_n)) h = Some false)
  ∧ entities (update_pass [entity1; entity3] (exec frame_n))
    = entities (exec frame_n)
  ∧ (∀ id h, entities (exec frame_n) !! id = Some h →
       enabled_at (update_pass [entity1; entity3] (exec frame_n)) h
       = Some (bool_decide (id ∈ ent_id <$> [entity1; entity3]))).
Proof.
  pose proof (reachable_exec frame_n) as Hr.
  assert (∀ e, e ∈ [entity1; entity3] →
            is_Some (entities (exec frame_n) !! ent_id e)) as Hes.
  { intros e He.
    apply elem_of_cons in He as [-> | He]; [by eexists|].
    apply elem_of_cons in He as [-> | He]; [by eexists|].
    inversion He. }
  exact (conj Hr (conj Hes
    (hide_then_show origin ent_id ent_position (exec frame_n)
       [entity1; entity3] Hr Hes))).
Defined.

(** The scenario of the two frames: mesh 2 ends disabled, meshes 1 and 3
    are enabled at their positions. *)
Example two_frames_scenario :
  enabled_at (exec two_frames) <$> [1; 2; 3]%nat
  = [Some true; Some false; Some true]
  ∧ position_at (exec two_frames) <$> [1; 2; 3]%nat
    = [Some (0, 0, 0); Some (1, 0, 0); Some (2, 0, 0)].
Proof. vm_compute. done. Qed.

(** C7 as stated fails: [createEntity] is called twice for entity 5; the
    scene then holds two entity meshes stamped "5", the map knows the
    second only, and the first stays enabled through [hideAllEntities]. *)
Lemma created_twice_two_meshes :
  mesh_id <$> scene_meshes (exec created_twice) = ["plane"; "5"; "5"]
  ∧ mesh_isPickable <$> scene_meshes (exec created_twice)
    = [false; true; true]
  ∧ entities (exec created_twice) !! 5 = Some 2%nat
  ∧ mesh_enabled <$> scene_meshes (hideAllEntities (exec created_twice))
    = [true; true; false].
Proof. vm_compute. done. Qed.

Lemma one_mesh_per_id_witness :
  guarded two_frames start = true
  ∧ (∀ i j h, entities (exec two_frames) !! i = Some h →
              entities (exec two_frames) !! j = Some h → i = j)
  ∧ (∀ id h, entities (exec two_frames) !! id = Some h →
       entity_mesh (exec two_frames) h
       ∧ mesh_id <$> scene_meshes (exec two_frames) !! h
         = Some (JS.number_to_string id)
       ∧ enabled_at (exec two_frames) h
         = Some (bool_decide (id ∈ latest_pass two_frames)))
  ∧ (∀ h, entity_mesh (exec two_frames) h →
       ∃ id, entities (exec two_frames) !! id = Some h
             ∧ (∀ id', entities (exec two_frames) !! id' = Some h → id' = id)
             ∧ mesh_id <$> scene_meshes (exec two_frames) !! h
               = Some (JS.number_to_string id)).
Proof.
  assert (guarded two_frames start = true) as Hg by reflexivity.
  pose proof (one_mesh_per_id origin ent_id ent_position two_frames) as H.
  cbv zeta in H.
  exact (conj Hg (conj (proj1 H) (conj (proj1 (proj2 H))
    (proj2 (proj2 H) Hg)))).
Defined.

(** With [createEntity] called twice for entity 5 and [hideAllEntities]
    after, the mesh the map holds for 5 is disabled, as the pass tells. *)
Example created_twice_tracked_mesh :
  entities (exec (created_twice ++ [HideAllEntities])) !! 5 = Some 2%nat
  ∧ enabled_at (exec (created_twice ++ [HideAllEntities])) 2 = Some false
  ∧ latest_pass (created_twice ++ [HideAllEntities]) = [].
Proof. vm_compute. done. Qed.

(** C9 as stated fails: the id [10 ^ 21] is an integer number; its stamp
    is ["1e+21"], and a pointer-down on the mesh calls [onEntitySelected]
    with 1. *)
Lemma pointer_down_1e21 :
  JS.is_number (ent_id entity_1e21)
  ∧ mesh_id <$> scene_meshes (exec [CreateEntity entity_1e21]) !! 1%nat
    = Some "1e+21"
  ∧ onPointerDown (mkPick true (Some 1%nat)) (exec [CreateEntity entity_1e21])
    = Some (exec [CreateEntity entity_1e21], [OnEntitySelected (Some 1)])
  ∧ ent_id entity_1e21 ≠ 1.
Proof. vm_compute. repeat split; congruence. Qed.

Lemma pointer_down_round_trip_witness :
  JS.is_number (ent_id entity5)
  ∧ Z.abs (ent_id entity5) < 10 ^ 21
  ∧ (let h := (createEntity entity5 start).1 in
     let c' := run [HideAllEntities; SetEntity entity5]
                   (createEntity entity5 start).2 in
     (JS.parseInt
        <$> (mesh_id <$> scene_meshes (createEntity entity5 start).2 !! h)
      = Some (Some (ent_id entity5)))
     ∧ onPointerDown (mkPick true (Some h)) c'
       = Some (c', [OnEntitySelected (Some (ent_id entity5))])
     ∧ ∀ p (c0 c1 : @SceneController Vec) calls,
         onPointerDown p c0 = Some (c1, calls) → c1 = c0).
Proof.
  assert (JS.is_number (ent_id entity5)) as Hnum by reflexivity.
  assert (Z.abs (ent_id entity5) < 10 ^ 21) as Hlt by reflexivity.
  exact (conj Hnum (conj Hlt
    (pointer_down_round_trip origin ent_id ent_position entity5 start
       [HideAllEntities; SetEntity entity5] Hnum Hlt))).
Defined.

(** *** Further scenarios *)

Lemma setEntity_last_wins_witness :
  ent_id entity1 = ent_id (mkEntity 1 (9, 9, 9))
  ∧ setEntity (mkEntity 1 (9, 9, 9)) (setEntity entity1 (exec frame_n))
    = setEntity (mkEntity 1 (9, 9, 9)) (exec frame_n).
Proof.
  assert (ent_id entity1 = ent_id (mkEntity 1 (9, 9, 9))) as Hid by reflexivity.
  exact (conj Hid
    (setEntity_last_wins origin ent_id ent_position entity1
       (mkEntity 1 (9, 9, 9)) (exec frame_n) Hid)).
Defined.

Lemma setEntity_commute_witness :
  reachable (exec frame_n)
  ∧ ent_id entity1 ≠ ent_id entity3
  ∧ is_Some (entities (exec frame_n) !! ent_id entity1)
  ∧ is_Some (entities (exec frame_n) !! ent_id entity3)
  ∧ setEntity entity1 (setEntity entity3 (exec frame_n))
    = setEntity entity3 (setEntity entity1 (exec frame_n)).
Proof.
  pose proof (reachable_exec frame_n) as Hr.
  assert (ent_id entity1 ≠ ent_id entity3) as Hne by discriminate.
  assert (is_Some (entities (exec frame_n) !! ent_id entity1)) as H1
    by (eexists; reflexivity).
  assert (is_Some (entities (exec frame_n) !! ent_id entity3)) as H3
    by (eexists; reflexivity).
  exact (conj Hr (conj Hne (conj H1 (conj H3
    (setEntity_commute origin ent_id ent_position (exec frame_n)
       entity1 entity3 Hr Hne H1 H3))))).
Defined.

Lemma scene_size_witness :
  guarded two_frames start = true
  ∧ (S (size (entities (exec two_frames)))
     <= length (scene_meshes (exec two_frames)))%nat
  ∧ length (scene_meshes (exec two_frames))
    = S (size (entities (exec two_frames))).
Proof.
  assert (guarded two_frames start = true) as Hg by reflexivity.
  pose proof (scene_size origin ent_id ent_position two_frames) as H.
  cbv zeta in H.
  exact (conj Hg (conj (proj1 H) (proj2 H Hg))).
Defined.

Lemma hover_then_stop_witness :
  reachable (exec frame_n)
  ∧ hoveredEntity (exec frame_n) = None
  ∧ onEntityStopHovered (onEntityHovered 2 (exec frame_n)) = exec frame_n.
Proof.
  pose proof (reachable_exec frame_n) as Hr.
  assert (hoveredEntity (exec frame_n) = None) as Hn by reflexivity.
  exact (conj Hr (conj Hn
    (hover_then_stop origin ent_id ent_position (exec frame_n) 2 Hr Hn))).
Defined.

Lemma selection_handoff_witness :
  reachable (exec frame_n)
  ∧ entities (exec frame_n) !! 1 = Some 1%nat
  ∧ entities (exec frame_n) !! 2 = Some 2%nat
  ∧ (let c' := markEntityAsSelected 2 (markEntityAsSelected 1 (exec frame_n)) in
     1%nat ≠ 2%nat
     ∧ selectedEntity c' = Some 2%nat
     ∧ material_at c' 2 = Some selectedMaterial
     ∧ material_at c' 1 = Some entityMaterial).
Proof.
  pose proof (reachable_exec frame_n) as Hr.
  assert (entities (exec frame_n) !! 1 = Some 1%nat) as H1 by reflexivity.
  assert (entities (exec frame_n) !! 2 = Some 2%nat) as H2 by reflexivity.
  assert (1 ≠ 2) as Hne by discriminate.
  exact (conj Hr (conj H1 (conj H2
    (proj2 (selection_handoff origin ent_id ent_position (exec frame_n) Hr)
       1 2 1%nat 2%nat Hne H1 H2)))).
Defined.

Lemma pointer_move_hovers_witness :
  reachable (exec frame_n)
  ∧ entities (exec frame_n) !! 3 = Some 3%nat
  ∧ JS.is_number 3 ∧ Z.abs 3 < 10 ^ 21
  ∧ onPointerMove (mkPick true (Some 3%nat)) (exec frame_n)
    = Some (onEntityHovered 3 (exec frame_n))
  ∧ hoveredEntity (onEntityHovered 3 (exec frame_n)) = Some 3%nat
  ∧ material_at (onEntityHovered 3 (exec frame_n)) 3 = Some hoveredMaterial.
Proof.
  pose proof (reachable_exec frame_n) as Hr.
  assert (entities (exec frame_n) !! 3 = Some 3%nat) as H3 by reflexivity.
  assert (JS.is_number 3) as Hnum by reflexivity.
  assert (Z.abs 3 < 10 ^ 21) as Hlt by reflexivity.
  exact (conj Hr (conj H3 (conj Hnum (conj Hlt
    (pointer_move_hovers origin ent_id ent_position (exec frame_n) 3 3%nat
       Hr H3 Hnum Hlt))))).
Defined.

Lemma distinct_ids_distinct_stamps_witness :
  reachable (exec frame_n)
  ∧ (1 : Z) ≠ 2
  ∧ entities (exec frame_n) !! 1 = Some 1%nat
  ∧ entities (exec frame_n) !! 2 = Some 2%nat
  ∧ scene_meshes (exec frame_n) !! 1%nat
    = Some (mkMesh "sphere" "1" entityMaterial true true (0, 0, 0))
  ∧ scene_meshes (exec frame_n) !! 2%nat
    = Some (mkMesh "sphere" "2" entityMaterial true true (1, 0, 0))
  ∧ JS.is_number 1 ∧ Z.abs 1 < 10 ^ 21
  ∧ JS.is_number 2 ∧ Z.abs 2 < 10 ^ 21
  ∧ mesh_id (mkMesh "sphere" "1" entityMaterial true true ((0, 0, 0) : Vec))
    ≠ mesh_id (mkMesh "sphere" "2" entityMaterial true true ((1, 0, 0) : Vec)).
Proof.
  pose proof (reachable_exec frame_n) as Hr.
  assert ((1 : Z) ≠ 2) as Hne by discriminate.
  assert (entities (exec frame_n) !! 1 = Some 1%nat) as H1 by reflexivity.
  assert (entities (exec frame_n) !! 2 = Some 2%nat) as H2 by reflexivity.
  assert (scene_meshes (exec frame_n) !! 1%nat
          = Some (mkMesh "sphere" "1" entityMaterial true true (0, 0, 0)))
    as Hm1 by reflexivity.
  assert (scene_meshes (exec frame_n) !! 2%nat
          = Some (mkMesh "sphere" "2" entityMaterial true true (1, 0, 0)))
    as Hm2 by reflexivity.
  assert (JS.is_number 1) as Hn1 by reflexivity.
  assert (Z.abs 1 < 10 ^ 21) as Hl1 by reflexivity.
  assert (JS.is_number 2) as Hn2 by reflexivity.
  assert (Z.abs 2 < 10 ^ 21) as Hl2 by reflexivity.
  exact (conj Hr (conj Hne (conj H1 (conj H2 (conj Hm1 (conj Hm2
    (conj Hn1 (conj Hl1 (conj Hn2 (conj Hl2
    (distinct_ids_distinct_stamps origin ent_id ent_position (exec frame_n)
       1 2 1%nat 2%nat _ _ Hr Hne H1 H2 Hm1 Hm2 Hn1 Hl1 Hn2 Hl2))))))))))).
Defined.

Lemma back_references_valid_witness :
  guarded selected_then_hovered start = true
  ∧ (∀ h, selectedEntity (exec selected_then_hovered) = Some h →
       entity_mesh (exec selected_then_hovered) h)
  ∧ (∀ h, hoveredEntity (exec selected_then_hovered) = Some h →
       entity_mesh (exec selected_then_hovered) h)
  ∧ (∀ h, selectedEntity (exec selected_then_hovered) = Some h →
       ∃ id, entities (exec selected_then_hovered) !! id = Some h)
  ∧ (∀ h, hoveredEntity (exec selected_then_hovered) = Some h →
       ∃ id, entities (exec selected_then_hovered) !! id = Some h).
Proof.
  assert (guarded selected_then_hovered start = true) as Hg by reflexivity.
  pose proof (back_references_valid origin ent_id ent_position
                selected_then_hovered) as H.
  cbv zeta in H.
  exact (conj Hg (conj (proj1 H) (conj (proj1 (proj2 H))
    (proj2 (proj2 H) Hg)))).
Defined.

Lemma tracked_stays_tracked_witness :
  entities (exec [SetEntity entity1]) !! 1 = Some 1%nat
  ∧ guarded [HideAllEntities; SetEntity entity2] (exec [SetEntity entity1])
    = true
  ∧ is_Some (entities (run [HideAllEntities; SetEntity entity2]
                          (exec [SetEntity entity1])) !! 1)
  ∧ entities (run [HideAllEntities; SetEntity entity2]
                  (exec [SetEntity entity1])) !! 1 = Some 1%nat.
Proof.
  assert (entities (exec [SetEntity entity1]) !! 1 = Some 1%nat) as H1
    by reflexivity.
  assert (guarded [HideAllEntities; SetEntity entity2]
            (exec [SetEntity entity1]) = true) as Hg by reflexivity.
  pose proof (tracked_stays_tracked origin ent_id ent_position
                [HideAllEntities; SetEntity entity2]
                (exec [SetEntity entity1]) 1 1%nat H1) as H.
  exact (conj H1 (conj Hg (conj (proj1 H) (proj2 H Hg)))).
Defined.

End Scenarios.
